(** * Kosaraju's strongly connected components: model and verification

    A shallow embedding of [scc::KosarajuSCC] (kosaraju.cpp) and the proofs
    of its specification: partition, mutual reachability, maximality,
    termination and the shape of the intermediate data (finishing order,
    transpose graph).

    C++ [int] values are modelled as [Z], [std::vector] as [list].  Indexing
    a vector outside its bounds is undefined behaviour in C++; the model
    makes it an explicit [OutOfBounds] outcome, and recursion is bounded by a
    fuel argument whose exhaustion is the [OutOfFuel] outcome.  The theorems
    show that neither outcome ever happens.

    Two things are taken for granted: the number of nodes fits in an [int]
    (so that [static_cast<int>(graph.size())] is the number of nodes), and
    the call stack is deep enough for a recursion of depth n. *)

From Stdlib Require Import ZArith Lia.
From stdpp Require Import base tactics option relations numbers sorting strings pretty list.

Local Open Scope Z_scope.

(** ** Outcomes of running the code *)

Inductive result (A : Type) : Type :=
  | Ok (a : A)
  | OutOfBounds
  | OutOfFuel.
Arguments Ok {A} a.
Arguments OutOfBounds {A}.
Arguments OutOfFuel {A}.

#[global] Instance result_ret : MRet result := λ A a, Ok a.
#[global] Instance result_bind : MBind result := λ A B f m,
  match m with
  | Ok a => f a
  | OutOfBounds => OutOfBounds
  | OutOfFuel => OutOfFuel
  end.

(** ** Vectors *)

(** [using Graph = std::vector<std::vector<int>>], and likewise
    [Components]: type aliases. *)
Abbreviation Graph := (list (list Z)) (only parsing).
Abbreviation Components := (list (list Z)) (only parsing).

(** [static_cast<int>(v.size())] *)
Definition size {A} (l : list A) : Z := Z.of_nat (length l).

(** [v[i]] as an rvalue *)
Definition at_ {A} (l : list A) (i : Z) : result A :=
  if bool_decide (0 ≤ i) then
    match l !! Z.to_nat i with
    | Some a => Ok a
    | None => OutOfBounds
    end
  else OutOfBounds.

(** [v[i] = a] *)
Definition set_at {A} (l : list A) (i : Z) (a : A) : result (list A) :=
  if bool_decide (0 ≤ i < size l) then Ok (<[Z.to_nat i := a]> l)
  else OutOfBounds.

(** [v[i].push_back(a)] *)
Definition push_back_at {A} (l : list (list A)) (i : Z) (a : A)
  : result (list (list A)) :=
  if bool_decide (0 ≤ i < size l) then Ok (alter (λ r, r ++ [a]) (Z.to_nat i) l)
  else OutOfBounds.

(** A [for] loop over the elements [xs], threading the mutable state [s]. *)
Fixpoint for_each {A S} (xs : list A) (body : A → S → result S) (s : S)
  : result S :=
  match xs with
  | [] => Ok s
  | x :: xs' => s' ← body x s; for_each xs' body s'
  end.

(** ** The two depth-first traversals (kosaraju.cpp, lines 73-98) *)

(** The guard [w >= 0 && w < n] *)
Definition in_bounds (n w : Z) : bool := (0 <=? w) && (w <? n).

Fixpoint dfsFirstPass (fuel : nat) (graph : Graph) (v : Z)
    (st : list bool * list Z) : result (list bool * list Z) :=
  match fuel with
  | O => OutOfFuel
  | S fuel' =>
    visited ← set_at st.1 v true;
    ws ← at_ graph v;
    st' ← for_each ws (λ w st,
            if in_bounds (size graph) w then
              b ← at_ st.1 w;
              if negb b then dfsFirstPass fuel' graph w st else Ok st
            else Ok st) (visited, st.2);
    Ok (st'.1, st'.2 ++ [v])
  end.

Fixpoint dfsSecondPass (fuel : nat) (transpose : Graph) (v : Z)
    (st : list bool * list Z) : result (list bool * list Z) :=
  match fuel with
  | O => OutOfFuel
  | S fuel' =>
    visited ← set_at st.1 v true;
    let component := st.2 ++ [v] in
    ws ← at_ transpose v;
    for_each ws (λ w st,
      if in_bounds (size transpose) w then
        b ← at_ st.1 w;
        if negb b then dfsSecondPass fuel' transpose w st else Ok st
      else Ok st) (visited, component)
  end.

(** ** The three phases of [findSCCs] (kosaraju.cpp, lines 25-63) *)

(** Lines 30-37: the finishing order. *)
Definition finishOrder (fuel : nat) (graph : Graph)
  : result (list bool * list Z) :=
  let n := size graph in
  for_each (seqZ 0 n) (λ v st,
    b ← at_ st.1 v;
    if negb b then dfsFirstPass fuel graph v st else Ok st)
    (replicate (Z.to_nat n) false, []).

(** Lines 40-47: the transpose graph. *)
Definition buildTranspose (graph : Graph) : result Graph :=
  let n := size graph in
  for_each (seqZ 0 n) (λ v transpose,
    ws ← at_ graph v;
    for_each ws (λ w transpose,
      if in_bounds n w then push_back_at transpose w v else Ok transpose)
      transpose)
    (replicate (Z.to_nat n) []).

(** Lines 50-60: one traversal of the transpose per unvisited node, nodes
    taken from [order] from its last index down to 0. *)
Definition componentPass (fuel : nat) (n : Z) (transpose : Graph)
    (order : list Z) (visited : list bool) : result (list bool * Components) :=
  for_each (reverse (seqZ 0 n)) (λ i st,
    v ← at_ order i;
    b ← at_ st.1 v;
    if negb b then
      r ← dfsSecondPass fuel transpose v (st.1, []);
      Ok (r.1, st.2 ++ [r.2])
    else Ok st)
    (visited, []).

Definition findSCCs_fuel (fuel : nat) (graph : Graph) : result Components :=
  let n := size graph in
  if n =? 0 then Ok []
  else
    st ← finishOrder fuel graph;
    transpose ← buildTranspose graph;
    (* std::fill(visited.begin(), visited.end(), false) *)
    let visited := replicate (length st.1) false in
    r ← componentPass fuel n transpose st.2 visited;
    Ok r.2.

(** The recursion of either traversal is never deeper than the number of
    nodes, so that much fuel is what the code is run with. *)
Definition findSCCs (graph : Graph) : result Components :=
  findSCCs_fuel (length graph) graph.

(** Lines 68-70. *)
Definition countSCCs (graph : Graph) : result Z :=
  comps ← findSCCs graph; Ok (size comps).

(** * Specification vocabulary *)

(** ** Visited markers *)

(** A node is white when its marker is readable and still [false]. *)
Definition white (vis : list bool) (v : Z) : Prop := at_ vis v = Ok false.

(** Number of white nodes: the measure that bounds the recursion depth. *)
Definition wcount (vis : list bool) : nat :=
  length (filter (λ b, b = false) vis).

(** ** Graph vocabulary

    Only the edges whose target is a node count: the code skips the others
    in both traversals and in the transposition. *)

Definition edge (g : Graph) (x y : Z) : Prop :=
  ∃ ws, at_ g x = Ok ws ∧ y ∈ ws ∧ 0 ≤ y < size g.

Definition reach (g : Graph) : relation Z := rtc (edge g).

(** Mutual reachability. *)
Definition scc (g : Graph) (a b : Z) : Prop := reach g a b ∧ reach g b a.

(** Edges, paths and mutual reachability through white nodes only. *)
Definition wedge (g : Graph) (vis : list bool) (a b : Z) : Prop :=
  edge g a b ∧ white vis b.

Definition wreach (g : Graph) (vis : list bool) : relation Z :=
  rtc (wedge g vis).

Definition wscc (g : Graph) (vis : list bool) (a b : Z) : Prop :=
  wreach g vis a b ∧ wreach g vis b a.

(** [b] is pushed onto the sequence [t] no later than [z]. *)
Definition fin_le (t : list Z) (b z : Z) : Prop :=
  ∃ i j : nat, t !! i = Some b ∧ t !! j = Some z ∧ (i ≤ j)%nat.

(** ** What one depth-first traversal achieves

    [dfs_post g vis x vis' t]: started at the white node [x] with markers
    [vis], the traversal ends with markers [vis'] after pushing the nodes [t].
    The properties do not depend on the order of [t], so they serve both
    the post-order of the first pass and the pre-order of the second. *)

Record dfs_post (g : Graph) (vis : list bool) (x : Z)
    (vis' : list bool) (t : list Z) : Prop := {
  dp_len : length vis' = length vis;
  dp_white : ∀ y, white vis' y ↔ white vis y ∧ y ∉ t;
  dp_reach : ∀ y, y ∈ t → white vis y ∧ wreach g vis x y;
  dp_nodup : NoDup t;
  dp_closed : ∀ a b, a ∈ t → edge g a b → ¬ white vis' b;
  dp_root : x ∈ t;
  dp_count : (wcount vis' ≤ wcount vis)%nat
}.

(** The invariant of the loop over the neighbours of [x]: [vis0] are the
    markers on entry of the call, [vis] the current ones, [T] the nodes
    pushed by the recursive calls made so far. *)
Record loop_inv (g : Graph) (vis0 : list bool) (x : Z)
    (vis : list bool) (T : list Z) : Prop := {
  li_len : length vis = length vis0;
  li_white : ∀ y, white vis y ↔ white vis0 y ∧ y ≠ x ∧ y ∉ T;
  li_reach : ∀ y, y ∈ T → y ≠ x ∧ wreach g vis0 x y;
  li_nodup : NoDup T;
  li_closed : ∀ a b, a ∈ T → edge g a b → ¬ white vis b;
  li_count : (wcount vis < wcount vis0)%nat
}.

(** ** The finishing-order property

    [ord_post g vis t]: whatever a pushed node [a] reaches (through white
    nodes) is pushed no later than some node mutually reachable with [a].
    This is the property of the post-order that makes the second pass
    correct. *)

Definition ord_post (g : Graph) (vis : list bool) (t : list Z) : Prop :=
  ∀ a b, a ∈ t → wreach g vis a b → ∃ z, wscc g vis a z ∧ fin_le t b z.

(** Inside the loop over the neighbours of [x] the node [x] is not pushed
    yet: a path that leads back to [x] is accounted for when [x] is pushed. *)
Definition ord_inv (g : Graph) (vis0 : list bool) (x : Z) (T : list Z) : Prop :=
  ∀ a b, a ∈ T → wreach g vis0 a b →
    (∃ z, wscc g vis0 a z ∧ fin_le T b z) ∨ wreach g vis0 a x.

(** ** Post-order

    [post_edges g vis t]: a neighbour [b] of a pushed node [a] is pushed no
    later than [a], unless [b] was on the call stack when [a] was visited,
    and then [b] leads back to [a]. *)

Definition post_edges (g : Graph) (vis : list bool) (t : list Z) : Prop :=
  ∀ a b, a ∈ t → edge g a b → white vis b → fin_le t b a ∨ wreach g vis b a.

(** ** The finishing order (first loop of [findSCCs])

    [top_inv g vis s]: between two iterations of the loop over the roots,
    [s] holds the nodes pushed so far.  No node is on the call stack, so the
    pushed nodes are closed under the edges of the graph. *)

Record top_inv (g : Graph) (vis : list bool) (s : list Z) : Prop := {
  ti_len : length vis = length g;
  ti_white : ∀ y, white vis y ↔ 0 ≤ y < size g ∧ y ∉ s;
  ti_range : ∀ y, y ∈ s → 0 ≤ y < size g;
  ti_nodup : NoDup s;
  ti_closed : ∀ a b, a ∈ s → edge g a b → b ∈ s;
  ti_ord : ∀ a b, a ∈ s → reach g a b → ∃ z, scc g a z ∧ fin_le s b z;
  ti_post : ∀ a b, a ∈ s → edge g a b → fin_le s b a ∨ reach g b a
}.

(** The roots are taken in ascending order: a node pushed no later than
    [u] is in the tree of a root that is at most [u] (and below the next
    candidate root [k]). *)
Definition roots_asc (g : Graph) (s : list Z) (k : Z) : Prop :=
  ∀ y u, fin_le s y u → ∃ u', 0 ≤ u' ≤ u ∧ u' < k ∧ reach g u' y.

(** ** The transpose graph *)

(** Number of occurrences of [x] in an adjacency list. *)
Definition occ (x : Z) (l : list Z) : nat := length (filter (λ y, y = x) l).

(** Number of occurrences of the edge [v -> w] in a graph; 0 when [v] is
    not a node slot. *)
Definition mult (g : Graph) (v w : Z) : nat :=
  match at_ g v with
  | Ok ws => occ w ws
  | _ => 0%nat
  end.

(** ** The components *)

(** The component [c], emitted after the components [pre], is headed by
    the root its traversal started from: the node of greatest index in
    [order] that is in none of the components before it.  Its members are
    the nodes mutually reachable with the root. *)
Definition comp_ok (g : Graph) (order : list Z) (pre : Components)
    (c : list Z) : Prop :=
  ∃ r rest (j : nat),
    c = r :: rest ∧
    (∀ b, b ∈ c ↔ scc g r b) ∧
    order !! j = Some r ∧
    (r ∉ mjoin pre) ∧
    (∀ (j' : nat) v, order !! j' = Some v → (j < j')%nat → v ∈ mjoin pre).

Record comp_inv (g : Graph) (order : list Z) (vis : list bool)
    (comps : Components) : Prop := {
  ci_len : length vis = length g;
  ci_white : ∀ y, white vis y ↔ 0 ≤ y < size g ∧ y ∉ mjoin comps;
  ci_nodup : NoDup (mjoin comps);
  ci_comps : ∀ (i : nat) c,
    comps !! i = Some c → comp_ok g order (take i comps) c
}.

(** ** Graphs without stray edges, and the scenario graphs *)

(** The graph without the edge targets outside [0, n). *)
Definition dropOutOfRange (g : Graph) : Graph :=
  (λ ws, filter (λ w, 0 ≤ w < size g) ws) <$> g.

(** The graphs of [testKosaraju] (kosaraju.cpp, lines 141-193), and one
    with edge targets that are not nodes. *)
Definition triangle : Graph := [[1]; [2]; [0]].
Definition twoCycles : Graph := [[1]; [0]; [3]; [2]].
Definition complex : Graph := [[1; 2]; [0; 3]; [0]; [1; 4]; [3]].
Definition withStrayEdges : Graph := [[1; 7; -1]; [2]; []; [0; 5; 1]].

(** ** Partitions into classes *)

(** [c] is a non-empty class of the relation [R]: a head and exactly the
    nodes related to it. *)
Definition class_of (R : relation Z) (c : list Z) : Prop :=
  ∃ r rest, c = r :: rest ∧ ∀ b, b ∈ c ↔ R r b.

(** Two nodes appear together in one component of [comps]. *)
Definition together (comps : Components) (u v : Z) : Prop :=
  ∃ c, c ∈ comps ∧ u ∈ c ∧ v ∈ c.

(** ** Markers only ever get set *)

(** From the state [s] to the state [r] no marker is cleared and the
    marker vector keeps its length. *)
Definition marks_kept (s r : list bool * list Z) : Prop :=
  length r.1 = length s.1 ∧ ∀ i, at_ s.1 i = Ok true → at_ r.1 i = Ok true.

(** ** Rows in ascending order *)

(** The entries of [row] never decrease from left to right. *)
Definition ascending (row : list Z) : Prop :=
  ∀ (i j : nat) a b, row !! i = Some a → row !! j = Some b → (i ≤ j)%nat → a ≤ b.

(** ** The demonstration code (kosaraju.cpp, lines 103-198)

    [std::cout] is modelled by the text written so far, and [operator<<] by
    appending to it; an [int] or a [size_t] is written in decimal, as
    [pretty] does. *)

(** The character written by ["\n"]. *)
Definition endl : string := String (Ascii.ascii_of_nat 10) EmptyString.

(** Lines 112-115 and 131-134, the same loop in both printing functions:
    the elements from index [j] on of a vector of [size] elements. *)
Fixpoint printElements (size j : nat) (xs : list Z) (out : string) : string :=
  match xs with
  | [] => out
  | x :: xs' =>
    let out := out +:+ pretty x in
    let out := if decide (j < size - 1)%nat then out +:+ ", " else out in
    printElements size (S j) xs' out
  end.

(** Lines 107-118: the loop over the nodes, from index [i] on. *)
Fixpoint printNodes (i : nat) (rows : list (list Z)) (out : string) : string :=
  match rows with
  | [] => out
  | row :: rows' =>
    let out := out +:+ "  Node " +:+ pretty i +:+ " -> " in
    let out :=
      match row with
      | [] => out +:+ "[]"
      | _ => printElements (length row) 0 row out
      end in
    printNodes (S i) rows' (out +:+ endl)
  end.

Definition printGraph (graph : Graph) (name : string) (out : string) : string :=
  let out := out +:+ endl +:+ name +:+ ":" +:+ endl in
  let out := out +:+ "Graph structure:" +:+ endl in
  printNodes 0 graph out.

(** Lines 129-136: the loop over the components, from index [i] on. *)
Fixpoint printComponents (i : nat) (components : Components) (out : string)
  : string :=
  match components with
  | [] => out
  | component :: components' =>
    let out := out +:+ "  SCC " +:+ pretty (i + 1)%nat +:+ ": [" in
    let out := printElements (length component) 0 component out in
    printComponents (S i) components' (out +:+ "]" +:+ endl)
  end.

Definition printSCCResults (components : Components) (out : string) : string :=
  let out := out +:+ endl +:+ "Strongly Connected Components:" +:+ endl in
  match components with
  | [] => out +:+ "  No components found" +:+ endl
  | _ =>
    let out := printComponents 0 components out in
    out +:+ "Total SCCs: " +:+ pretty (length components) +:+ endl
  end.

(** How a run ends: the function returns, or an [assert] fails and the
    program is aborted; [out] is what was written until then. *)
Inductive run (A : Type) : Type :=
  | Returns (a : A) (out : string)
  | AssertFails (out : string).
Arguments Returns {A} a out.
Arguments AssertFails {A} out.

(** [assert(c);] followed by [rest] *)
Definition assert_then {A} (c : bool) (out : string) (rest : result (run A))
  : result (run A) :=
  if c then rest else Ok (AssertFails out).

Definition testKosaraju (out : string) : result (run unit) :=
  let out := out +:+ "=== Kosaraju's SCC Algorithm Demo ===" +:+ endl in
  (* Test case 1 *)
  let out := out +:+ endl +:+ "--- Test Case 1: Triangle Graph ---" in
  let out := printGraph triangle "Triangle Graph (0->1->2->0)" out in
  components ← findSCCs triangle;
  let out := printSCCResults components out in
  assert_then (size components =? 1) out (
  c0 ← at_ components 0;
  assert_then (size c0 =? 3) out (
  let out := out +:+ "✓ Expected: 1 SCC with all 3 nodes" +:+ endl in
  (* Test case 2 *)
  let out := out +:+ endl +:+ "--- Test Case 2: Two Separate Cycles ---" in
  let out := printGraph twoCycles "Two Cycles (0<->1, 2<->3)" out in
  components ← findSCCs twoCycles;
  let out := printSCCResults components out in
  assert_then (size components =? 2) out (
  let out := out +:+ "✓ Expected: 2 SCCs, each with 2 nodes" +:+ endl in
  (* Test case 3 *)
  let out := out +:+ endl +:+ "--- Test Case 3: Empty Graph ---" in
  let out := printGraph [] "Empty Graph" out in
  components ← findSCCs [];
  let out := printSCCResults components out in
  assert_then (bool_decide (components = [])) out (
  let out := out +:+ "✓ Expected: 0 SCCs" +:+ endl in
  (* Test case 4 *)
  let out := out +:+ endl +:+ "--- Test Case 4: Single Node ---" in
  let out := printGraph [[]] "Single Node Graph" out in
  components ← findSCCs [[]];
  let out := printSCCResults components out in
  assert_then (size components =? 1) out (
  c0 ← at_ components 0;
  assert_then (size c0 =? 1) out (
  let out := out +:+ "✓ Expected: 1 SCC with 1 node" +:+ endl in
  (* Test case 5 *)
  let out := out +:+ endl +:+ "--- Test Case 5: Complex Graph ---" in
  let out := printGraph complex "Complex Graph" out in
  components ← findSCCs complex;
  let out := printSCCResults components out in
  let out := out +:+ "✓ Analysis: Multiple SCCs detected" +:+ endl in
  let out := out +:+ endl +:+ "=== All Tests Passed! ===" +:+ endl in
  Ok (Returns () out))))))).

Definition main (out : string) : result (run Z) :=
  r ← testKosaraju out;
  match r with
  | Returns _ out => Ok (Returns 0 out)
  | AssertFails out => Ok (AssertFails out)
  end.

(** ** What the printing functions write, in closed form *)

(** The elements of a row, separated by [", "]. *)
Definition showElements (row : list Z) : string :=
  String.concat ", " (pretty <$> row).

(** The line written for node [i] with adjacency list [row]. *)
Definition showNode (i : nat) (row : list Z) : string :=
  "  Node " +:+ pretty i +:+ " -> " +:+
  (match row with [] => "[]" | _ => showElements row end) +:+ endl.

(** The line written for the component of index [i]. *)
Definition showComponent (i : nat) (component : list Z) : string :=
  "  SCC " +:+ pretty (i + 1)%nat +:+ ": [" +:+ showElements component +:+
  "]" +:+ endl.

(** The lines one after the other. *)
Definition unlines (lines : list string) : string :=
  foldr String.append EmptyString lines.

(** * Lemmas *)

(** Run the binds of the [result] monad that stand at the head of the goal. *)
Ltac step := cbn [mbind result_bind].

(** ** Reading the model: vectors and the visited markers *)

Lemma at_Ok {A} (l : list A) (i : Z) (a : A) :
  at_ l i = Ok a ↔ 0 ≤ i ∧ l !! Z.to_nat i = Some a.
Proof.
  unfold at_. case_bool_decide.
  - destruct (l !! Z.to_nat i) eqn:E; split.
    + intros [= ->]. done.
    + intros [_ [= ->]]. done.
    + discriminate.
    + intros [_ [=]].
  - split; [discriminate | intros []; lia].
Qed.

Lemma at_in_range {A} (l : list A) (i : Z) (a : A) :
  at_ l i = Ok a → 0 ≤ i < size l.
Proof.
  intros [? H%lookup_lt_Some]%at_Ok. unfold size. lia.
Qed.

Lemma at_total {A} (l : list A) (i : Z) :
  0 ≤ i < size l → ∃ a, at_ l i = Ok a.
Proof.
  intros Hi. unfold size in Hi.
  destruct (lookup_lt_is_Some_2 l (Z.to_nat i)) as [a Ha]; [lia|].
  exists a. apply at_Ok. split; [lia | done].
Qed.

Lemma at_elem_of {A} (l : list A) (i : Z) (a : A) : at_ l i = Ok a → a ∈ l.
Proof. intros [_ H]%at_Ok. by eapply list_elem_of_lookup_2. Qed.

Lemma in_bounds_true (n w : Z) : in_bounds n w = true ↔ 0 ≤ w < n.
Proof. unfold in_bounds. rewrite andb_true_iff, Z.leb_le, Z.ltb_lt. done. Qed.

Lemma white_in_range vis v : white vis v → 0 ≤ v < size vis.
Proof. apply at_in_range. Qed.

Lemma white_dec vis v : white vis v ∨ ¬ white vis v.
Proof.
  unfold white. destruct (at_ vis v) as [[]| |]; auto; right; discriminate.
Qed.

Lemma white_mark vis x y :
  0 ≤ x → white (<[Z.to_nat x := true]> vis) y ↔ white vis y ∧ y ≠ x.
Proof.
  intros Hx. unfold white. rewrite !at_Ok. split.
  - intros [Hy Hl]. destruct (decide (y = x)) as [->|Hne].
    + apply lookup_lt_Some in Hl as Hlt. rewrite length_insert in Hlt.
      rewrite list_lookup_insert_eq in Hl by done. discriminate.
    + rewrite list_lookup_insert_ne in Hl by lia. done.
  - intros [[Hy Hl] Hne]. split; [done|].
    rewrite list_lookup_insert_ne by lia. done.
Qed.

Lemma wcount_mark vis i :
  vis !! i = Some false → (wcount (<[i := true]> vis) + 1 = wcount vis)%nat.
Proof.
  unfold wcount. revert i. induction vis as [|b vis IH]; intros [|i] H;
    try discriminate.
  - injection H as ->. change (<[0%nat:=true]> (false :: vis)) with (true :: vis).
    rewrite filter_cons_False by done. rewrite filter_cons_True by done.
    simpl. lia.
  - change (<[S i:=true]> (b :: vis)) with (b :: <[i:=true]> vis).
    specialize (IH i H). destruct b.
    + rewrite !filter_cons_False by done. done.
    + rewrite !filter_cons_True by done. simpl. lia.
Qed.

Lemma wcount_white_pos vis v : white vis v → (0 < wcount vis)%nat.
Proof.
  intros [_ H]%at_Ok. apply list_elem_of_lookup_2 in H.
  unfold wcount.
  assert (false ∈ filter (λ b, b = false) vis) as Hin
    by (apply list_elem_of_filter; done).
  destruct (filter _ vis); [by apply elem_of_nil in Hin | simpl; lia].
Qed.

Lemma white_replicate n v : white (replicate n false) v ↔ 0 ≤ v < Z.of_nat n.
Proof.
  unfold white. rewrite at_Ok. split.
  - intros [? H%lookup_lt_Some]. rewrite length_replicate in H. lia.
  - intros ?. split; [lia|]. apply lookup_replicate_2. lia.
Qed.

(** ** Paths and positions in a sequence *)

Lemma edge_source g x y : edge g x y → 0 ≤ x < size g.
Proof. intros (ws & H & _). by eapply at_in_range. Qed.

Lemma edge_target g x y : edge g x y → 0 ≤ y < size g.
Proof. by intros (ws & _ & _ & H). Qed.

Lemma reach_in_range g x y : reach g x y → 0 ≤ x < size g → 0 ≤ y < size g.
Proof.
  induction 1 as [|a b c Hab _ IH]; [done|].
  intros _. apply IH. by eapply edge_target.
Qed.

Lemma scc_refl g a : scc g a a.
Proof. split; apply rtc_refl. Qed.

Lemma scc_sym g a b : scc g a b → scc g b a.
Proof. intros []. by split. Qed.

Lemma scc_trans g a b c : scc g a b → scc g b c → scc g a c.
Proof. intros [] []. split; by eapply rtc_trans. Qed.

Lemma wreach_reach g vis a b : wreach g vis a b → reach g a b.
Proof. apply rtc_subrel. by intros ?? []. Qed.

Lemma wreach_mono g vis vis0 a b :
  (∀ y, white vis y → white vis0 y) → wreach g vis a b → wreach g vis0 a b.
Proof. intros H. apply rtc_subrel. intros ?? []. split; auto. Qed.

Lemma wreach_white g vis a b : wreach g vis a b → white vis a → white vis b.
Proof. induction 1 as [|x y z [_ Hy] _ IH]; auto. Qed.

Lemma wscc_scc g vis a b : wscc g vis a b → scc g a b.
Proof. intros []. split; by eapply wreach_reach. Qed.

Lemma wscc_mono g vis vis0 a b :
  (∀ y, white vis y → white vis0 y) → wscc g vis a b → wscc g vis0 a b.
Proof. intros H []. split; by eapply wreach_mono. Qed.

Lemma fin_le_refl t a : a ∈ t → fin_le t a a.
Proof. intros [i Hi]%list_elem_of_lookup. by exists i, i. Qed.

Lemma fin_le_elem_l t b z : fin_le t b z → b ∈ t.
Proof. intros (i & j & Hi & _). by eapply list_elem_of_lookup_2. Qed.

Lemma fin_le_app_l T t b z : fin_le T b z → fin_le (T ++ t) b z.
Proof.
  intros (i & j & Hi & Hj & Hij). exists i, j.
  split_and!; [by apply lookup_app_l_Some..|done].
Qed.

Lemma fin_le_app_r T t b z : fin_le t b z → fin_le (T ++ t) b z.
Proof.
  intros (i & j & Hi & Hj & Hij). exists (length T + i)%nat, (length T + j)%nat.
  rewrite !lookup_app_r by lia.
  replace (length T + i - length T)%nat with i by lia.
  replace (length T + j - length T)%nat with j by lia.
  split_and!; [done..|lia].
Qed.

Lemma fin_le_app_lr T t b a : b ∈ T → a ∈ t → fin_le (T ++ t) b a.
Proof.
  intros [i Hi]%list_elem_of_lookup [j Hj]%list_elem_of_lookup.
  exists i, (length T + j)%nat. split_and!.
  - by apply lookup_app_l_Some.
  - rewrite lookup_app_r by lia.
    by replace (length T + j - length T)%nat with j by lia.
  - apply lookup_lt_Some in Hi. lia.
Qed.

Lemma fin_le_last T x b : b ∈ T ++ [x] → fin_le (T ++ [x]) b x.
Proof.
  intros [Hb|Hb%list_elem_of_singleton]%elem_of_app.
  - apply fin_le_app_lr; [done | apply list_elem_of_singleton; done].
  - subst. apply fin_le_refl, elem_of_app. right. by apply list_elem_of_singleton.
Qed.

Lemma fin_le_app_inv T t b z :
  fin_le (T ++ t) b z → fin_le T b z ∨ (b ∈ T ∧ z ∈ t) ∨ fin_le t b z.
Proof.
  intros (i & j & Hi & Hj & Hij).
  apply lookup_app_Some in Hi as [Hi|[Hi1 Hi2]];
    apply lookup_app_Some in Hj as [Hj|[Hj1 Hj2]].
  - left. by exists i, j.
  - right; left. split; by eapply list_elem_of_lookup_2.
  - apply lookup_lt_Some in Hj. lia.
  - right; right. exists (i - length T)%nat, (j - length T)%nat.
    split_and!; [done..|lia].
Qed.

(** ** One traversal and the loop over the neighbours *)

Lemma dfs_post_perm g vis x vis' t t' :
  t ≡ₚ t' → dfs_post g vis x vis' t → dfs_post g vis x vis' t'.
Proof.
  intros Hp [H1 H2 H3 H4 H5 H6 H7]. split; try done.
  - intros y. rewrite <- Hp. apply H2.
  - intros y. rewrite <- Hp. apply H3.
  - by rewrite <- Hp.
  - intros a b. rewrite <- Hp. apply H5.
  - by rewrite <- Hp.
Qed.

(** Every white node that [x] reaches through white nodes is pushed. *)
Lemma dfs_post_complete g vis x vis' t :
  dfs_post g vis x vis' t → ∀ y, wreach g vis x y → y ∈ t.
Proof.
  intros Hp. apply rtc_ind_r.
  - by eapply dp_root.
  - intros p q Hxp [Hpq Hq] IH. destruct (decide (q ∈ t)) as [|Hn]; [done|].
    exfalso. eapply (dp_closed _ _ _ _ _ Hp); [exact IH | exact Hpq |].
    apply (dp_white _ _ _ _ _ Hp). done.
Qed.

Lemma dfs_post_white_mono g vis x vis' t :
  dfs_post g vis x vis' t → ∀ y, white vis' y → white vis y.
Proof. intros Hp y Hy. by apply (dp_white _ _ _ _ _ Hp) in Hy as []. Qed.

Lemma loop_inv_init g vis0 x :
  white vis0 x → loop_inv g vis0 x (<[Z.to_nat x := true]> vis0) [].
Proof.
  intros Hx. pose proof (white_in_range _ _ Hx) as Hr. split.
  - apply length_insert.
  - intros y. rewrite white_mark by lia. rewrite elem_of_nil. tauto.
  - intros y Hy. by apply elem_of_nil in Hy.
  - constructor.
  - intros a b Ha. by apply elem_of_nil in Ha.
  - apply at_Ok in Hx as [_ Hx]. apply wcount_mark in Hx. lia.
Qed.

Lemma loop_inv_white_mono g vis0 x vis T :
  loop_inv g vis0 x vis T → ∀ y, white vis y → white vis0 y.
Proof. intros Hi y Hy. by apply (li_white _ _ _ _ _ Hi) in Hy as []. Qed.

Lemma loop_inv_step g vis0 x vis T w vis' t :
  white vis0 x → loop_inv g vis0 x vis T → edge g x w → white vis w →
  dfs_post g vis w vis' t → loop_inv g vis0 x vis' (T ++ t).
Proof.
  intros Hx Hi Hxw Hw Hp. split.
  - rewrite (dp_len _ _ _ _ _ Hp). by eapply li_len.
  - intros y. rewrite (dp_white _ _ _ _ _ Hp), (li_white _ _ _ _ _ Hi).
    rewrite elem_of_app. tauto.
  - intros y [Hy|Hy]%elem_of_app; [by eapply li_reach|].
    apply (dp_reach _ _ _ _ _ Hp) in Hy as [Hyw Hy]. split.
    { apply (li_white _ _ _ _ _ Hi) in Hyw. tauto. }
    eapply rtc_l.
    + split; [exact Hxw|]. by eapply loop_inv_white_mono.
    + eapply wreach_mono; [|exact Hy]. by eapply loop_inv_white_mono.
  - apply NoDup_app. split_and!; [by eapply li_nodup| |by eapply dp_nodup].
    intros y Hy Hy'. apply (dp_reach _ _ _ _ _ Hp) in Hy' as [Hy' _].
    apply (li_white _ _ _ _ _ Hi) in Hy'. tauto.
  - intros a b [Ha|Ha]%elem_of_app Hab Hb.
    + eapply (li_closed _ _ _ _ _ Hi); [exact Ha | exact Hab |].
      by eapply dfs_post_white_mono.
    + by eapply (dp_closed _ _ _ _ _ Hp).
  - pose proof (dp_count _ _ _ _ _ Hp). pose proof (li_count _ _ _ _ _ Hi). lia.
Qed.

Lemma loop_inv_final g vis0 x vis' T :
  white vis0 x → loop_inv g vis0 x vis' T →
  (∀ w, edge g x w → ¬ white vis' w) →
  dfs_post g vis0 x vis' (T ++ [x]).
Proof.
  intros Hx Hi Hsucc. split.
  - by eapply li_len.
  - intros y. rewrite (li_white _ _ _ _ _ Hi), elem_of_app, list_elem_of_singleton.
    tauto.
  - intros y [Hy|Hy%list_elem_of_singleton]%elem_of_app.
    + pose proof (li_reach _ _ _ _ _ Hi y Hy) as [_ Hr]. split; [|done].
      by eapply wreach_white.
    + subst y. split; [done | apply rtc_refl].
  - apply NoDup_app. split_and!; [by eapply li_nodup| |apply NoDup_singleton].
    intros y Hy Hy'%list_elem_of_singleton. subst y.
    by destruct (li_reach _ _ _ _ _ Hi x Hy).
  - intros a b [Ha|Ha%list_elem_of_singleton]%elem_of_app Hab.
    + by eapply li_closed.
    + subst a. by apply Hsucc.
  - apply elem_of_app. right. by apply list_elem_of_singleton.
  - pose proof (li_count _ _ _ _ _ Hi). lia.
Qed.

(** ** The finishing-order property is maintained *)

(** A path that starts in [T] stays in [T] unless it passes through [x]. *)
Lemma loop_inv_escape g vis0 x vis T :
  loop_inv g vis0 x vis T →
  ∀ c b, wreach g vis0 c b → c ∈ T → b ∈ T ∨ wreach g vis0 c x.
Proof.
  intros Hi c b Hcb. induction Hcb as [c|c c' b [Hcc' Hc'] _ IH]; [by left|].
  intros Hc.
  pose proof (li_closed _ _ _ _ _ Hi c c' Hc Hcc') as Hnw.
  rewrite (li_white _ _ _ _ _ Hi) in Hnw.
  destruct (decide (c' = x)) as [->|Hne].
  { right. apply rtc_once. by split. }
  destruct (decide (c' ∈ T)) as [Hin|Hnin]; [|tauto].
  destruct (IH Hin) as [?|Hr]; [by left|].
  right. eapply rtc_l; [|exact Hr]. by split.
Qed.

(** A path from a node that is still white either stays white, or passes
    through [x], or ends among the nodes already pushed. *)
Lemma loop_inv_paths g vis0 x vis T :
  loop_inv g vis0 x vis T →
  ∀ a b, wreach g vis0 a b → white vis a →
    wreach g vis a b ∨ wreach g vis0 a x ∨ b ∈ T.
Proof.
  intros Hi a b Hab. induction Hab as [a|a c b [Hac Hc] Hcb IH].
  { left. apply rtc_refl. }
  intros Ha. destruct (white_dec vis c) as [Hwc|Hnw].
  - destruct (IH Hwc) as [Hr|[Hr|Hr]].
    + left. eapply rtc_l; [|exact Hr]. by split.
    + right; left. eapply rtc_l; [|exact Hr]. by split.
    + by right; right.
  - rewrite (li_white _ _ _ _ _ Hi) in Hnw.
    destruct (decide (c = x)) as [->|Hne].
    { right; left. apply rtc_once. by split. }
    destruct (decide (c ∈ T)) as [Hin|Hnin]; [|tauto].
    destruct (loop_inv_escape _ _ _ _ _ Hi c b Hcb Hin) as [?|Hr].
    + by right; right.
    + right; left. eapply rtc_l; [|exact Hr]. by split.
Qed.

Lemma ord_inv_init g vis0 x : ord_inv g vis0 x [].
Proof. intros a b Ha. by apply elem_of_nil in Ha. Qed.

Lemma ord_inv_step g vis0 x vis T w vis' t :
  loop_inv g vis0 x vis T → ord_inv g vis0 x T →
  dfs_post g vis w vis' t → ord_post g vis t →
  ord_inv g vis0 x (T ++ t).
Proof.
  intros Hi Ho Hp Hq a b [Ha|Ha]%elem_of_app Hab.
  - destruct (Ho a b Ha Hab) as [(z & Hz & Hle)|Hr]; [left|by right].
    exists z. split; [done | by apply fin_le_app_l].
  - pose proof (dp_reach _ _ _ _ _ Hp a Ha) as [Hwa _].
    destruct (loop_inv_paths _ _ _ _ _ Hi a b Hab Hwa) as [Hr|[Hr|Hr]].
    + destruct (Hq a b Ha Hr) as (z & Hz & Hle). left. exists z. split.
      * eapply wscc_mono; [|exact Hz]. by eapply loop_inv_white_mono.
      * by apply fin_le_app_r.
    + by right.
    + left. exists a. split; [split; apply rtc_refl|].
      by apply fin_le_app_lr.
Qed.

Lemma ord_post_final g vis0 x vis' T :
  loop_inv g vis0 x vis' T → ord_inv g vis0 x T →
  dfs_post g vis0 x vis' (T ++ [x]) → ord_post g vis0 (T ++ [x]).
Proof.
  intros Hi Ho Hp a b Ha Hab.
  assert (b ∈ T ++ [x]) as Hb.
  { eapply dfs_post_complete; [exact Hp|].
    eapply rtc_trans; [|exact Hab]. by apply (dp_reach _ _ _ _ _ Hp). }
  apply elem_of_app in Ha as [Ha|Ha%list_elem_of_singleton].
  - destruct (Ho a b Ha Hab) as [(z & Hz & Hle)|Hr].
    + exists z. split; [done | by apply fin_le_app_l].
    + exists x. split; [|by apply fin_le_last].
      split; [done|]. by apply (li_reach _ _ _ _ _ Hi).
  - subst a. exists x. split; [split; apply rtc_refl | by apply fin_le_last].
Qed.

(** ** The post-order property is maintained *)

Lemma post_edges_init g vis0 : post_edges g vis0 [].
Proof. intros a b Ha. by apply elem_of_nil in Ha. Qed.

Lemma post_edges_step g vis0 x vis T w vis' t :
  loop_inv g vis0 x vis T → loop_inv g vis0 x vis' (T ++ t) →
  post_edges g vis0 T →
  dfs_post g vis w vis' t → post_edges g vis t →
  post_edges g vis0 (T ++ t).
Proof.
  intros Hi Hi' Ho Hp Hq a b [Ha|Ha]%elem_of_app Hab Hb.
  - destruct (Ho a b Ha Hab Hb) as [Hle|Hr]; [left|by right].
    by apply fin_le_app_l.
  - destruct (white_dec vis b) as [Hwb|Hnw].
    + destruct (Hq a b Ha Hab Hwb) as [Hle|Hr]; [left|right].
      * by apply fin_le_app_r.
      * eapply wreach_mono; [|exact Hr]. by eapply loop_inv_white_mono.
    + rewrite (li_white _ _ _ _ _ Hi) in Hnw.
      destruct (decide (b = x)) as [->|Hne].
      { right. apply (li_reach _ _ _ _ _ Hi'), elem_of_app. by right. }
      destruct (decide (b ∈ T)) as [Hin|Hnin]; [|tauto].
      left. by apply fin_le_app_lr.
Qed.

Lemma post_edges_final g vis0 x vis' T :
  loop_inv g vis0 x vis' T → post_edges g vis0 T →
  dfs_post g vis0 x vis' (T ++ [x]) → post_edges g vis0 (T ++ [x]).
Proof.
  intros Hi Ho Hp a b [Ha|Ha%list_elem_of_singleton]%elem_of_app Hab Hb.
  - destruct (Ho a b Ha Hab Hb) as [Hle|Hr]; [left|by right].
    by apply fin_le_app_l.
  - subst a. left. apply fin_le_last.
    pose proof (dp_closed _ _ _ _ _ Hp x b (dp_root _ _ _ _ _ Hp) Hab) as Hnw.
    rewrite (dp_white _ _ _ _ _ Hp) in Hnw.
    destruct (decide (b ∈ T ++ [x])); [done | tauto].
Qed.

(** ** The loop over the neighbours, for either traversal

    [rec] stands for the recursive call with one unit of fuel less, [Q] for
    what is known of the nodes a recursive call pushes besides [dfs_post],
    [J] for what is maintained about the nodes pushed so far. *)

Section neighbours.
Variables (g : Graph) (fuel : nat).
Variable rec : Z → list bool * list Z → result (list bool * list Z).
Variable Q : Z → list bool → list Z → Prop.
Hypothesis rec_spec : ∀ w vis acc,
  length vis = length g → white vis w → (wcount vis ≤ fuel)%nat →
  ∃ vis' t, rec w (vis, acc) = Ok (vis', acc ++ t) ∧
            dfs_post g vis w vis' t ∧ Q w vis t.

Variables (vis0 : list bool) (x : Z) (J : list Z → Prop).
Hypothesis Hx : white vis0 x.
Hypothesis Hlen0 : length vis0 = length g.
Hypothesis Hfuel : (wcount vis0 ≤ S fuel)%nat.
Hypothesis J_step : ∀ vis T w vis' t,
  loop_inv g vis0 x vis T → loop_inv g vis0 x vis' (T ++ t) → J T →
  dfs_post g vis w vis' t → Q w vis t → J (T ++ t).

Lemma loop_inv_white_prefix vis T vis' T' :
  loop_inv g vis0 x vis T → loop_inv g vis0 x vis' (T ++ T') →
  ∀ y, white vis' y → white vis y.
Proof.
  intros Hi Hi' y. rewrite (li_white _ _ _ _ _ Hi), (li_white _ _ _ _ _ Hi').
  rewrite elem_of_app. tauto.
Qed.

Lemma neighbours_loop ws : ∀ vis T acc,
  (∀ w, w ∈ ws → 0 ≤ w < size g → edge g x w) →
  loop_inv g vis0 x vis T → J T →
  ∃ vis' T',
    for_each ws (λ w st,
      if in_bounds (size g) w then
        b ← at_ st.1 w;
        if negb b then rec w st else Ok st
      else Ok st) (vis, acc) = Ok (vis', acc ++ T') ∧
    loop_inv g vis0 x vis' (T ++ T') ∧ J (T ++ T') ∧
    (∀ w, w ∈ ws → 0 ≤ w < size g → ¬ white vis' w).
Proof.
  induction ws as [|w ws IH]; intros vis T acc Hws Hi HJ.
  { exists vis, []. rewrite !app_nil_r. split_and!; try done.
    intros w Hw. by apply elem_of_nil in Hw. }
  assert (∀ w', w' ∈ ws → 0 ≤ w' < size g → edge g x w') as Hws'.
  { intros w' Hw'. apply Hws. by right. }
  cbn [for_each]. destruct (in_bounds (size g) w) eqn:Hb.
  - apply in_bounds_true in Hb.
    destruct (at_total vis w) as [b Hvw].
    { unfold size in *. rewrite (li_len _ _ _ _ _ Hi), Hlen0. done. }
    cbn [fst]. rewrite Hvw. destruct b; cbn [mbind result_bind negb].
    + destruct (IH vis T acc Hws' Hi HJ) as (vis' & T' & Hrun & Hi' & HJ' & Hnw).
      exists vis', T'. split_and!; try done.
      intros w' [->|Hw']%elem_of_cons Hr; [|by apply Hnw].
      intros Hw. eapply loop_inv_white_prefix in Hw; [|exact Hi|exact Hi'].
      unfold white in Hw. congruence.
    + destruct (rec_spec w vis acc) as (vis1 & t & Hrec & Hp & HQ).
      { rewrite (li_len _ _ _ _ _ Hi). done. }
      { done. }
      { pose proof (li_count _ _ _ _ _ Hi). lia. }
      rewrite Hrec. step.
      assert (edge g x w) as Hxw by (apply Hws; [by left|done]).
      pose proof (loop_inv_step _ _ _ _ _ _ _ _ Hx Hi Hxw Hvw Hp) as Hi1.
      pose proof (J_step _ _ _ _ _ Hi Hi1 HJ Hp HQ) as HJ1.
      destruct (IH vis1 (T ++ t) (acc ++ t) Hws' Hi1 HJ1)
        as (vis' & T' & Hrun & Hi' & HJ' & Hnw).
      exists vis', (t ++ T'). rewrite !(assoc_L (++)).
      split_and!; try done.
      intros w' [->|Hw']%elem_of_cons Hr; [|by apply Hnw].
      intros Hw. eapply loop_inv_white_prefix in Hw; [|exact Hi1|exact Hi'].
      apply (dp_white _ _ _ _ _ Hp) in Hw as [_ Hw].
      apply Hw. by eapply dp_root.
  - destruct (IH vis T acc Hws' Hi HJ) as (vis' & T' & Hrun & Hi' & HJ' & Hnw).
    exists vis', T'. split_and!; try done.
    intros w' [->|Hw']%elem_of_cons Hr; [|by apply Hnw].
    apply in_bounds_true in Hr. congruence.
Qed.
End neighbours.

(** ** The two traversals meet their specification *)

Lemma edge_of_neighbour g x ws w :
  at_ g x = Ok ws → w ∈ ws → 0 ≤ w < size g → edge g x w.
Proof. intros. by exists ws. Qed.

Lemma neighbour_of_edge g x ws w : at_ g x = Ok ws → edge g x w → w ∈ ws.
Proof. intros Hx (ws' & Hx' & Hw & _). congruence. Qed.

Lemma dfsFirstPass_spec fuel g : ∀ x vis ord,
  length vis = length g → white vis x → (wcount vis ≤ fuel)%nat →
  ∃ vis' t, dfsFirstPass fuel g x (vis, ord) = Ok (vis', ord ++ t) ∧
            dfs_post g vis x vis' t ∧
            (ord_post g vis t ∧ post_edges g vis t ∧ ∃ t', t = t' ++ [x]).
Proof.
  induction fuel as [|fuel IH]; intros x vis ord Hlen Hx Hfuel.
  { apply wcount_white_pos in Hx. lia. }
  pose proof (white_in_range _ _ Hx) as Hr.
  destruct (at_total g x) as [ws Hws]; [unfold size in *; lia|].
  destruct (neighbours_loop g fuel (dfsFirstPass fuel g)
              (λ w vis t,
                 ord_post g vis t ∧ post_edges g vis t ∧ ∃ t', t = t' ++ [w])
              IH vis x
              (λ T, ord_inv g vis x T ∧ post_edges g vis T)
              Hx Hlen Hfuel) with
    (ws := ws) (vis := <[Z.to_nat x := true]> vis) (T := @nil Z) (acc := ord)
    as (vis' & T & Hrun & Hi & (HJ & HP) & Hnw).
  { intros vis1 T w vis2 t Hi Hi' (Ho & Hpe) Hp (Hq & Hq' & _). split.
    - by eapply ord_inv_step.
    - by eapply post_edges_step. }
  { intros w. by apply edge_of_neighbour. }
  { by apply loop_inv_init. }
  { split; [apply ord_inv_init | apply post_edges_init]. }
  cbn [app] in Hi, HJ, HP.
  assert (dfs_post g vis x vis' (T ++ [x])) as Hp.
  { apply loop_inv_final; [done..|].
    intros w Hxw. apply Hnw; [by eapply neighbour_of_edge | by eapply edge_target]. }
  exists vis', (T ++ [x]). split_and!; [|done| | |by exists T].
  - cbn [dfsFirstPass fst snd]. unfold set_at.
    rewrite bool_decide_eq_true_2 by done. step.
    rewrite Hws. step. rewrite Hrun.
    cbn [mbind result_bind fst snd]. by rewrite (assoc_L (++)).
  - by eapply ord_post_final.
  - by eapply post_edges_final.
Qed.

Lemma dfsSecondPass_spec fuel g : ∀ x vis comp,
  length vis = length g → white vis x → (wcount vis ≤ fuel)%nat →
  ∃ vis' t, dfsSecondPass fuel g x (vis, comp) = Ok (vis', comp ++ t) ∧
            dfs_post g vis x vis' t ∧ ∃ t', t = x :: t'.
Proof.
  induction fuel as [|fuel IH]; intros x vis comp Hlen Hx Hfuel.
  { apply wcount_white_pos in Hx. lia. }
  pose proof (white_in_range _ _ Hx) as Hr.
  destruct (at_total g x) as [ws Hws]; [unfold size in *; lia|].
  destruct (neighbours_loop g fuel (dfsSecondPass fuel g)
              (λ w vis t, ∃ t', t = w :: t') IH
              vis x (λ _, True) Hx Hlen Hfuel) with
    (ws := ws) (vis := <[Z.to_nat x := true]> vis) (T := @nil Z)
    (acc := comp ++ [x])
    as (vis' & T & Hrun & Hi & _ & Hnw).
  { done. }
  { intros w. by apply edge_of_neighbour. }
  { by apply loop_inv_init. }
  { done. }
  cbn [app] in Hi.
  assert (dfs_post g vis x vis' (T ++ [x])) as Hp.
  { apply loop_inv_final; [done..|].
    intros w Hxw. apply Hnw; [by eapply neighbour_of_edge | by eapply edge_target]. }
  exists vis', (x :: T). split_and!; [| |by exists T].
  - cbn [dfsSecondPass fst snd]. unfold set_at.
    rewrite bool_decide_eq_true_2 by done. step.
    rewrite Hws. step. rewrite Hrun.
    by rewrite <- (assoc_L (++)).
  - eapply dfs_post_perm; [|exact Hp].
    symmetry. apply Permutation_cons_append.
Qed.

(** ** The finishing order (first loop of [findSCCs]) *)

Lemma wcount_le_length vis : (wcount vis ≤ length vis)%nat.
Proof. apply length_filter. Qed.

Lemma top_inv_init g : top_inv g (replicate (Z.to_nat (size g)) false) [].
Proof.
  unfold size. rewrite Nat2Z.id. split.
  - apply length_replicate.
  - intros y. rewrite white_replicate, elem_of_nil. tauto.
  - intros y Hy. by apply elem_of_nil in Hy.
  - constructor.
  - intros a b Ha. by apply elem_of_nil in Ha.
  - intros a b Ha. by apply elem_of_nil in Ha.
  - intros a b Ha. by apply elem_of_nil in Ha.
Qed.

Lemma top_inv_reach_closed g vis s :
  top_inv g vis s → ∀ a b, reach g a b → a ∈ s → b ∈ s.
Proof.
  intros Hi a b Hab. induction Hab as [|a c b Hac _ IH]; [done|].
  intros Ha. apply IH. by eapply ti_closed.
Qed.

(** A path from a white root stays white or ends among the pushed nodes. *)
Lemma top_inv_paths g vis s :
  top_inv g vis s →
  ∀ a b, reach g a b → white vis a → wreach g vis a b ∨ b ∈ s.
Proof.
  intros Hi a b Hab. induction Hab as [a|a c b Hac Hcb IH].
  { left. apply rtc_refl. }
  intros Ha. destruct (white_dec vis c) as [Hwc|Hnw].
  - destruct (IH Hwc) as [Hr|Hr]; [left|by right].
    eapply rtc_l; [|exact Hr]. by split.
  - right. rewrite (ti_white _ _ _ Hi) in Hnw.
    pose proof (edge_target _ _ _ Hac).
    destruct (decide (c ∈ s)) as [Hin|Hnin]; [|tauto].
    by eapply top_inv_reach_closed.
Qed.

Lemma top_inv_step g vis s x vis' t :
  top_inv g vis s → white vis x →
  dfs_post g vis x vis' t → ord_post g vis t → post_edges g vis t →
  top_inv g vis' (s ++ t).
Proof.
  intros Hi Hx Hp Hq Hq'.
  assert (∀ y, y ∈ t → white vis y) as Htw
    by (intros y Hy; by apply (dp_reach _ _ _ _ _ Hp)).
  split.
  - rewrite (dp_len _ _ _ _ _ Hp). by eapply ti_len.
  - intros y. rewrite (dp_white _ _ _ _ _ Hp), (ti_white _ _ _ Hi), elem_of_app.
    tauto.
  - intros y [Hy|Hy]%elem_of_app; [by eapply ti_range|].
    apply Htw, (ti_white _ _ _ Hi) in Hy. tauto.
  - apply NoDup_app. split_and!; [by eapply ti_nodup| |by eapply dp_nodup].
    intros y Hy Hy'. apply Htw, (ti_white _ _ _ Hi) in Hy'. tauto.
  - intros a b [Ha|Ha]%elem_of_app Hab; apply elem_of_app.
    + left. by eapply ti_closed.
    + pose proof (dp_closed _ _ _ _ _ Hp a b Ha Hab) as Hnw.
      rewrite (dp_white _ _ _ _ _ Hp), (ti_white _ _ _ Hi) in Hnw.
      pose proof (edge_target _ _ _ Hab).
      destruct (decide (b ∈ s)); [by left|].
      destruct (decide (b ∈ t)); [by right|]. tauto.
  - intros a b [Ha|Ha]%elem_of_app Hab.
    + destruct (ti_ord _ _ _ Hi a b Ha Hab) as (z & Hz & Hle).
      exists z. split; [done | by apply fin_le_app_l].
    + destruct (top_inv_paths _ _ _ Hi a b Hab (Htw a Ha)) as [Hr|Hr].
      * destruct (Hq a b Ha Hr) as (z & Hz & Hle).
        exists z. split; [by eapply wscc_scc | by apply fin_le_app_r].
      * exists a. split; [apply scc_refl | by apply fin_le_app_lr].
  - intros a b [Ha|Ha]%elem_of_app Hab.
    + destruct (ti_post _ _ _ Hi a b Ha Hab) as [Hle|Hr]; [left|by right].
      by apply fin_le_app_l.
    + destruct (white_dec vis b) as [Hwb|Hnw].
      * destruct (Hq' a b Ha Hab Hwb) as [Hle|Hr]; [left|right].
        -- by apply fin_le_app_r.
        -- by eapply wreach_reach.
      * left. rewrite (ti_white _ _ _ Hi) in Hnw.
        pose proof (edge_target _ _ _ Hab).
        destruct (decide (b ∈ s)) as [Hin|Hnin]; [|tauto].
        by apply fin_le_app_lr.
Qed.

Lemma roots_asc_step g vis s k vis' t :
  0 ≤ k → top_inv g vis s → (∀ v, 0 ≤ v < k → v ∈ s) →
  roots_asc g s k → dfs_post g vis k vis' t →
  roots_asc g (s ++ t) (k + 1).
Proof.
  intros Hk Hi Hdone Hasc Hp y u Hle.
  assert (∀ a, a ∈ t → k ≤ a ∧ reach g k a) as Ht.
  { intros a [Ha Hr]%(dp_reach _ _ _ _ _ Hp). split; [|by eapply wreach_reach].
    apply (ti_white _ _ _ Hi) in Ha as [Har Has].
    destruct (decide (k ≤ a)); [done|]. destruct Has. apply Hdone. lia. }
  apply fin_le_app_inv in Hle as [Hle|[[Hy Hu]|Hle]].
  - destruct (Hasc y u Hle) as (u' & ? & ? & ?). exists u'. split_and!; try done; lia.
  - destruct (Hasc y y (fin_le_refl _ _ Hy)) as (u' & ? & ? & ?).
    apply Ht in Hu as [Hu _]. exists u'. split_and!; try done; lia.
  - destruct Hle as (i & j & Hy & Hu & _).
    apply list_elem_of_lookup_2, Ht in Hy as [_ Hy].
    apply list_elem_of_lookup_2, Ht in Hu as [Hu _].
    exists k. split_and!; try done; lia.
Qed.

Lemma finishOrder_loop fuel g : (length g ≤ fuel)%nat →
  ∀ (m : nat) k vis s,
    0 ≤ k → k + Z.of_nat m = size g →
    top_inv g vis s → (∀ v, 0 ≤ v < k → v ∈ s) → roots_asc g s k →
    ∃ vis' s',
      for_each (seqZ k (Z.of_nat m)) (λ v st,
        b ← at_ st.1 v;
        if negb b then dfsFirstPass fuel g v st else Ok st) (vis, s)
      = Ok (vis', s') ∧
      top_inv g vis' s' ∧ (∀ v, 0 ≤ v < size g → v ∈ s') ∧
      roots_asc g s' (size g).
Proof.
  intros Hfuel. induction m as [|m IH]; intros k vis s Hk Hkm Hi Hdone Hasc.
  { exists vis, s. replace (size g) with k by lia. split_and!; [done..| |done].
    intros v Hv. apply Hdone. lia. }
  rewrite seqZ_cons by lia.
  replace (Z.pred (Z.of_nat (S m))) with (Z.of_nat m) by lia.
  cbn [for_each fst].
  destruct (at_total vis k) as [b Hb].
  { unfold size in *. rewrite (ti_len _ _ _ Hi). lia. }
  rewrite Hb. destruct b; cbn [mbind result_bind negb].
  - apply IH; [lia..|done| |].
    + intros v Hv. destruct (decide (v = k)) as [->|]; [|apply Hdone; lia].
      destruct (decide (k ∈ s)) as [|Hn]; [done|].
      assert (white vis k) as Hw by (apply (ti_white _ _ _ Hi); split; [lia|done]).
      unfold white in Hw. congruence.
    + intros y u Hle. destruct (Hasc y u Hle) as (u' & ? & ? & ?).
      exists u'. split_and!; try done; lia.
  - destruct (dfsFirstPass_spec fuel g k vis s)
      as (vis1 & t & Hrun & Hp & Hq & Hq' & _).
    { by eapply ti_len. }
    { done. }
    { pose proof (wcount_le_length vis). rewrite (ti_len _ _ _ Hi) in *. lia. }
    rewrite Hrun. step.
    apply IH; [lia..|by eapply top_inv_step| |].
    + intros v Hv. apply elem_of_app.
      destruct (decide (v = k)) as [->|]; [|left; apply Hdone; lia].
      right. by eapply dp_root.
    + replace (Z.succ k) with (k + 1) by lia. by eapply roots_asc_step.
Qed.

Lemma finishOrder_spec fuel g : (length g ≤ fuel)%nat →
  ∃ vis order,
    finishOrder fuel g = Ok (vis, order) ∧
    top_inv g vis order ∧ (∀ v, 0 ≤ v < size g → v ∈ order) ∧
    roots_asc g order (size g).
Proof.
  intros Hfuel. unfold finishOrder.
  replace (seqZ 0 (size g)) with (seqZ 0 (Z.of_nat (length g))) by done.
  apply finishOrder_loop; [done|lia|done|apply top_inv_init|lia|].
  intros y u Hle. by apply fin_le_elem_l, elem_of_nil in Hle.
Qed.

Lemma top_inv_permutation g vis order :
  top_inv g vis order → (∀ v, 0 ≤ v < size g → v ∈ order) →
  order ≡ₚ seqZ 0 (size g).
Proof.
  intros Hi Hall. apply NoDup_Permutation.
  - by eapply ti_nodup.
  - apply NoDup_seqZ.
  - intros v. rewrite elem_of_seqZ. split.
    + intros Hv%(ti_range _ _ _ Hi). lia.
    + intros ?. apply Hall. lia.
Qed.

(** ** The transpose graph (second loop of [findSCCs]) *)

Lemma occ_cons x y l :
  occ x (y :: l) = ((if decide (y = x) then 1 else 0) + occ x l)%nat.
Proof.
  unfold occ. case_decide.
  - by rewrite filter_cons_True.
  - by rewrite filter_cons_False.
Qed.

Lemma occ_snoc x l y :
  occ x (l ++ [y]) = (occ x l + (if decide (y = x) then 1 else 0))%nat.
Proof.
  unfold occ. rewrite filter_app, length_app. f_equal.
  case_decide.
  - by rewrite filter_cons_True.
  - by rewrite filter_cons_False.
Qed.

Lemma occ_pos x l : (0 < occ x l)%nat ↔ x ∈ l.
Proof.
  induction l as [|y l IH].
  - rewrite elem_of_nil. unfold occ. simpl. lia.
  - rewrite occ_cons, elem_of_cons, <- IH. case_decide; [|simpl].
    + split; [auto | lia].
    + split; [auto | intros [|]; [congruence | done]].
Qed.

Lemma mult_pos_edge g v w :
  (0 < mult g v w)%nat ∧ 0 ≤ w < size g ↔ edge g v w.
Proof.
  unfold mult, edge. split.
  - intros [Hm Hw]. destruct (at_ g v) as [ws| |] eqn:E; try lia.
    exists ws. split; [done|]. split; [by apply occ_pos | done].
  - intros (ws & -> & Hin & Hw). split; [by apply occ_pos | done].
Qed.

Lemma mult_push tr w0 v w u :
  0 ≤ w0 < size tr →
  mult (alter (λ r, r ++ [v]) (Z.to_nat w0) tr) w u =
  (mult tr w u + (if decide (w = w0 ∧ u = v) then 1 else 0))%nat.
Proof.
  intros Hw0. unfold mult, at_. case_bool_decide as Hw.
  - rewrite list_lookup_alter. case_decide as Heq.
    + assert (w = w0) as -> by lia.
      destruct (tr !! Z.to_nat w0) as [r|] eqn:E; simpl.
      * rewrite occ_snoc. repeat case_decide; lia.
      * apply lookup_ge_None in E. unfold size in Hw0. lia.
    + rewrite decide_False by (intros [-> _]; done).
      destruct (tr !! Z.to_nat w); lia.
  - rewrite decide_False by (intros [-> _]; lia). done.
Qed.

(** The inner loop: the edges of one node [v] are mirrored. *)
Lemma buildTranspose_inner n v ws : ∀ tr,
  size tr = n →
  ∃ tr',
    for_each ws (λ w transpose,
      if in_bounds n w then push_back_at transpose w v else Ok transpose) tr
    = Ok tr' ∧
    size tr' = n ∧
    ∀ w u, mult tr' w u =
      (mult tr w u +
       (if decide (u = v) then if in_bounds n w then occ w ws else 0 else 0))%nat.
Proof.
  induction ws as [|w0 ws IH]; intros tr Hn.
  { exists tr. split_and!; [done..|]. intros w u.
    unfold occ. simpl. repeat case_match; lia. }
  cbn [for_each]. destruct (in_bounds n w0) eqn:Hb.
  - apply in_bounds_true in Hb as Hr. unfold push_back_at.
    rewrite bool_decide_eq_true_2 by lia. step.
    destruct (IH (alter (λ r, r ++ [v]) (Z.to_nat w0) tr)) as (tr' & Hrun & Hlen & Hm).
    { unfold size. rewrite length_alter. done. }
    exists tr'. split_and!; [done..|]. intros w u.
    rewrite Hm, mult_push by lia. rewrite occ_cons.
    destruct (decide (u = v)) as [->|]; destruct (in_bounds n w) eqn:Hbw;
      repeat case_decide; try lia.
    destruct_and!; subst. congruence.
  - destruct (IH tr Hn) as (tr' & Hrun & Hlen & Hm).
    exists tr'. step. split_and!; [done..|]. intros w u.
    rewrite Hm, occ_cons.
    destruct (decide (u = v)) as [->|]; destruct (in_bounds n w) eqn:Hbw;
      repeat case_decide; try lia. congruence.
Qed.

Lemma buildTranspose_loop g : ∀ (m : nat) k tr,
  0 ≤ k → k + Z.of_nat m = size g → size tr = size g →
  (∀ w u, mult tr w u =
     if bool_decide (u < k) && in_bounds (size g) w then mult g u w else 0%nat) →
  ∃ tr',
    for_each (seqZ k (Z.of_nat m)) (λ v transpose,
      ws ← at_ g v;
      for_each ws (λ w transpose,
        if in_bounds (size g) w then push_back_at transpose w v
        else Ok transpose) transpose) tr
    = Ok tr' ∧
    size tr' = size g ∧
    ∀ w u, mult tr' w u = if in_bounds (size g) w then mult g u w else 0%nat.
Proof.
  induction m as [|m IH]; intros k tr Hk Hkm Hlen Hm.
  { exists tr. split_and!; [done..|]. intros w u. rewrite Hm.
    case_bool_decide; [done|]. simpl.
    destruct (in_bounds (size g) w); [|done].
    unfold mult. destruct (at_ g u) as [ws| |] eqn:E; try done.
    apply at_in_range in E. lia. }
  rewrite seqZ_cons by lia.
  replace (Z.pred (Z.of_nat (S m))) with (Z.of_nat m) by lia.
  cbn [for_each].
  destruct (at_total g k) as [ws Hws]; [lia|].
  rewrite Hws. step.
  destruct (buildTranspose_inner (size g) k ws tr Hlen) as (tr1 & Hrun & Hlen1 & Hm1).
  rewrite Hrun. step.
  apply IH; [lia..|done|].
  intros w u. rewrite Hm1, Hm.
  destruct (in_bounds (size g) w) eqn:Hb; rewrite ?andb_true_r, ?andb_false_r.
  - destruct (decide (u = k)) as [->|].
    + rewrite bool_decide_eq_false_2, bool_decide_eq_true_2 by lia.
      unfold mult. by rewrite Hws.
    + repeat case_bool_decide; try lia.
  - case_decide; done.
Qed.

Lemma mult_replicate_nil n w u : mult (replicate n []) w u = 0%nat.
Proof.
  unfold mult. destruct (at_ _ w) as [r| |] eqn:E; try done.
  apply at_elem_of, elem_of_replicate in E as [-> _]. done.
Qed.

Lemma buildTranspose_spec g :
  ∃ tr, buildTranspose g = Ok tr ∧ size tr = size g ∧
    ∀ w u, mult tr w u = if in_bounds (size g) w then mult g u w else 0%nat.
Proof.
  unfold buildTranspose.
  replace (seqZ 0 (size g)) with (seqZ 0 (Z.of_nat (length g))) by done.
  apply buildTranspose_loop; [done|unfold size; lia| |].
  - unfold size. rewrite length_replicate. lia.
  - intros w u. rewrite mult_replicate_nil.
    case_bool_decide; simpl; [|done].
    destruct (in_bounds _ w); [|done].
    unfold mult. destruct (at_ g u) as [ws| |] eqn:E; try done.
    apply at_in_range in E. lia.
Qed.

Lemma transpose_edge g tr :
  size tr = size g →
  (∀ w u, mult tr w u = if in_bounds (size g) w then mult g u w else 0%nat) →
  ∀ a b, edge tr a b ↔ edge g b a.
Proof.
  intros Hlen Hm a b. rewrite <- !mult_pos_edge, Hm, Hlen. split.
  - intros [Hpos Hb]. destruct (in_bounds (size g) a) eqn:Ha; [|lia].
    by apply in_bounds_true in Ha.
  - intros [Hpos Ha]. rewrite (proj2 (in_bounds_true _ _) Ha). split; [done|].
    eapply edge_source, mult_pos_edge. split; [exact Hpos | done].
Qed.

Lemma transpose_reach g tr :
  (∀ a b, edge tr a b ↔ edge g b a) → ∀ a b, reach tr a b → reach g b a.
Proof.
  intros He a b Hab. induction Hab as [|a c b Hac _ IH]; [apply rtc_refl|].
  eapply rtc_r; [exact IH|]. by apply He.
Qed.

(** ** The component pass (third loop of [findSCCs]) *)

(** The visited nodes are closed under mutual reachability. *)
Lemma comp_inv_scc_closed g order vis comps :
  comp_inv g order vis comps →
  ∀ a b, a ∈ mjoin comps → scc g a b → b ∈ mjoin comps.
Proof.
  intros Hi a b (c & Hac & [i Hc]%list_elem_of_lookup)%list_elem_of_join Hab.
  destruct (ci_comps _ _ _ _ Hi i c Hc) as (r & rest & j & _ & Hscc & _).
  apply list_elem_of_join. exists c. split; [|by eapply list_elem_of_lookup_2].
  apply Hscc. eapply scc_trans; [|exact Hab]. by apply Hscc.
Qed.

(** Within a component whose nodes are all white, the transpose leads from
    the root back to every node. *)
Lemma scc_white_back g tr vis v :
  (∀ a b, edge tr a b ↔ edge g b a) →
  (∀ p, scc g v p → white vis p) →
  ∀ b, reach g b v → reach g v b → wreach tr vis v b.
Proof.
  intros He Hw.
  apply (rtc_ind_l (λ b, reach g v b → wreach tr vis v b)).
  - intros _. apply rtc_refl.
  - intros b c Hbc Hcv IH Hvb. eapply rtc_r.
    + apply IH. eapply rtc_r; [exact Hvb | exact Hbc].
    + split; [by apply He|]. apply Hw. split; [done|].
      eapply rtc_l; [exact Hbc | exact Hcv].
Qed.

Section component_pass.
Variables (g tr : Graph) (fuel : nat) (order : list Z) (vis1 : list bool).
Hypothesis Hfuel : (length g ≤ fuel)%nat.
Hypothesis Htop : top_inv g vis1 order.
Hypothesis Hall : ∀ v, 0 ≤ v < size g → v ∈ order.
Hypothesis Hsize : size tr = size g.
Hypothesis Hedge : ∀ a b, edge tr a b ↔ edge g b a.

(** A traversal of the transpose from the first unvisited node of the
    reversed finishing order collects exactly its component. *)
Lemma component_is_scc (k : nat) vis comps v vis' t :
  comp_inv g order vis comps →
  (∀ (j : nat) u, order !! j = Some u → (S k ≤ j)%nat → u ∈ mjoin comps) →
  order !! k = Some v → white vis v →
  dfs_post tr vis v vis' t →
  ∀ b, b ∈ t ↔ scc g v b.
Proof.
  intros Hi Hdone Hk Hv Hp b.
  pose proof (proj1 (ci_white _ _ _ _ Hi v) Hv) as [Hvr Hvn]. split.
  - intros Hb. apply (dp_reach _ _ _ _ _ Hp) in Hb as [Hwb Hr].
    apply wreach_reach, (transpose_reach g tr Hedge) in Hr.
    split; [|done].
    pose proof (proj1 (ci_white _ _ _ _ Hi b) Hwb) as [Hbr Hbn].
    destruct (ti_ord _ _ _ Htop b v (Hall b Hbr) Hr)
      as (z & Hz & i & j & Hiv & Hjz & Hij).
    assert (i = k) as -> by (eapply NoDup_lookup; [by eapply ti_nodup|done..]).
    destruct (decide (j = k)) as [->|Hne].
    + assert (z = v) as -> by congruence. by destruct Hz.
    + exfalso. apply Hbn.
      eapply comp_inv_scc_closed; [exact Hi| |apply scc_sym; exact Hz].
      eapply Hdone; [exact Hjz | lia].
  - intros [Hvb Hbv]. eapply dfs_post_complete; [exact Hp|].
    assert (∀ p, scc g v p → white vis p) as Hwhite.
    { intros p Hp'. apply (ci_white _ _ _ _ Hi). split.
      - eapply reach_in_range; [apply Hp' | done].
      - intros Hin. apply Hvn.
        eapply comp_inv_scc_closed; [exact Hi|exact Hin|by apply scc_sym]. }
    by eapply scc_white_back.
Qed.

Lemma comp_inv_step (k : nat) vis comps v vis' t :
  comp_inv g order vis comps →
  (∀ (j : nat) u, order !! j = Some u → (S k ≤ j)%nat → u ∈ mjoin comps) →
  order !! k = Some v → white vis v →
  dfs_post tr vis v vis' t → (∃ t', t = v :: t') →
  comp_inv g order vis' (comps ++ [t]) ∧
  (∀ (j : nat) u, order !! j = Some u → (k ≤ j)%nat → u ∈ mjoin (comps ++ [t])).
Proof.
  intros Hi Hdone Hk Hv Hp [t' Ht].
  pose proof (component_is_scc k vis comps v vis' t Hi Hdone Hk Hv Hp) as Hscc.
  pose proof (proj1 (ci_white _ _ _ _ Hi v) Hv) as [Hvr Hvn].
  assert (mjoin (comps ++ [t]) = mjoin comps ++ t) as Hjoin.
  { rewrite join_app. simpl. by rewrite app_nil_r. }
  split; [split|].
  - rewrite (dp_len _ _ _ _ _ Hp). by eapply ci_len.
  - intros y. rewrite Hjoin, (dp_white _ _ _ _ _ Hp), (ci_white _ _ _ _ Hi).
    rewrite elem_of_app. tauto.
  - rewrite Hjoin. apply NoDup_app.
    split_and!; [by eapply ci_nodup| |by eapply dp_nodup].
    intros y Hy Hy'. apply (dp_reach _ _ _ _ _ Hp) in Hy' as [Hy' _].
    apply (ci_white _ _ _ _ Hi) in Hy'. tauto.
  - intros i c [[Hlt Hc]|[-> <-]]%lookup_snoc_Some.
    + rewrite take_app_le by lia. by eapply ci_comps.
    + rewrite take_app_length. exists v, t', k. split_and!; done.
  - intros j u Hu Hle. rewrite Hjoin. apply elem_of_app.
    destruct (decide (j = k)) as [->|Hne].
    + right. assert (u = v) as -> by congruence. by eapply dp_root.
    + left. eapply Hdone; [exact Hu | lia].
Qed.

Lemma componentPass_loop : ∀ (k : nat) vis comps,
  (k ≤ length order)%nat →
  comp_inv g order vis comps →
  (∀ (j : nat) u, order !! j = Some u → (k ≤ j)%nat → u ∈ mjoin comps) →
  ∃ vis' comps',
    for_each (reverse (seqZ 0 (Z.of_nat k))) (λ i st,
      v ← at_ order i;
      b ← at_ st.1 v;
      if negb b then
        r ← dfsSecondPass fuel tr v (st.1, []);
        Ok (r.1, st.2 ++ [r.2])
      else Ok st) (vis, comps) = Ok (vis', comps') ∧
    comp_inv g order vis' comps' ∧
    (∀ v, 0 ≤ v < size g → v ∈ mjoin comps').
Proof.
  induction k as [|k IH]; intros vis comps Hk Hi Hdone.
  { exists vis, comps. split_and!; [done..|].
    intros v Hv. apply Hall in Hv as [j Hj]%list_elem_of_lookup.
    eapply Hdone; [exact Hj | lia]. }
  rewrite seqZ_S, reverse_snoc. cbn [for_each].
  destruct (lookup_lt_is_Some_2 order k) as [v Hv]; [lia|].
  assert (at_ order (0 + Z.of_nat k) = Ok v) as ->.
  { apply at_Ok. split; [lia|]. by rewrite Z.add_0_l, Nat2Z.id. }
  cbn [mbind result_bind fst snd].
  assert (0 ≤ v < size g) as Hvr.
  { eapply ti_range; [exact Htop|]. by eapply list_elem_of_lookup_2. }
  destruct (at_total vis v) as [b Hb].
  { unfold size in *. rewrite (ci_len _ _ _ _ Hi). lia. }
  rewrite Hb. destruct b; cbn [mbind result_bind negb].
  - apply IH; [lia|done|].
    intros j u Hu Hle. destruct (decide (j = k)) as [->|]; [|eapply Hdone; [done|lia]].
    assert (u = v) as -> by congruence.
    destruct (decide (v ∈ mjoin comps)) as [|Hn]; [done|].
    assert (white vis v) as Hw by (by apply (ci_white _ _ _ _ Hi)).
    unfold white in Hw. congruence.
  - destruct (dfsSecondPass_spec fuel tr v vis []) as (vis2 & t & Hrun & Hp & Ht).
    { unfold size in *. rewrite (ci_len _ _ _ _ Hi). lia. }
    { done. }
    { pose proof (wcount_le_length vis). rewrite (ci_len _ _ _ _ Hi) in *. lia. }
    rewrite Hrun. cbn [mbind result_bind fst snd app].
    destruct (comp_inv_step k vis comps v vis2 t Hi Hdone Hv Hb Hp Ht) as [Hi' Hdone'].
    apply IH; [lia|done..].
Qed.
End component_pass.

(** ** The whole of [findSCCs] *)

Lemma comp_inv_init g order n :
  n = length g → comp_inv g order (replicate n false) [].
Proof.
  intros ->. split.
  - apply length_replicate.
  - intros y. rewrite white_replicate. simpl. rewrite elem_of_nil.
    unfold size. tauto.
  - constructor.
  - intros i c Hc. by destruct i.
Qed.

Lemma findSCCs_fuel_spec fuel g :
  (length g ≤ fuel)%nat → size g ≠ 0 →
  ∃ vis1 order tr vis2 comps,
    finishOrder fuel g = Ok (vis1, order) ∧
    top_inv g vis1 order ∧ (∀ v, 0 ≤ v < size g → v ∈ order) ∧
    buildTranspose g = Ok tr ∧
    componentPass fuel (size g) tr order (replicate (length g) false)
      = Ok (vis2, comps) ∧
    findSCCs_fuel fuel g = Ok comps ∧
    comp_inv g order vis2 comps ∧
    (∀ v, 0 ≤ v < size g → v ∈ mjoin comps).
Proof.
  intros Hfuel Hn.
  destruct (finishOrder_spec fuel g Hfuel)
    as (vis1 & order & Hfin & Htop & Hall & _).
  destruct (buildTranspose_spec g) as (tr & Htr & Hsize & Hmult).
  pose proof (transpose_edge g tr Hsize Hmult) as Hedge.
  assert (length order = length g) as Hlen.
  { rewrite (top_inv_permutation _ _ _ Htop Hall), length_seqZ.
    unfold size. lia. }
  destruct (componentPass_loop g tr fuel order vis1 Hfuel Htop Hall Hsize Hedge
              (length order) (replicate (length vis1) false) [])
    as (vis2 & comps & Hrun & Hi & Hcov).
  { done. }
  { apply comp_inv_init. by eapply ti_len. }
  { intros j u Hu Hle. apply lookup_lt_Some in Hu. lia. }
  assert (componentPass fuel (size g) tr order (replicate (length vis1) false)
          = Ok (vis2, comps)) as Hcp.
  { unfold componentPass.
    replace (size g) with (Z.of_nat (length order)) by (unfold size; lia).
    done. }
  exists vis1, order, tr, vis2, comps. split_and!; try done.
  - by rewrite <- (ti_len _ _ _ Htop).
  - unfold findSCCs_fuel. rewrite (proj2 (Z.eqb_neq _ _) Hn).
    rewrite Hfin. step. rewrite Htr.
    cbn [mbind result_bind fst snd]. rewrite Hcp. done.
Qed.

Lemma size_zero_nil {A} (l : list A) : size l = 0 → l = [].
Proof. destruct l; [done | unfold size; simpl; lia]. Qed.

Lemma comp_ok_head g order pre c :
  comp_ok g order pre c → ∃ r rest, c = r :: rest ∧ ∀ b, b ∈ c ↔ scc g r b.
Proof. intros (r & rest & j & -> & H & _). by exists r, rest. Qed.

(** The result of [findSCCs], in terms of the graph alone. *)
Lemma findSCCs_spec g :
  ∃ comps, findSCCs g = Ok comps ∧
    NoDup (mjoin comps) ∧
    (∀ v, v ∈ mjoin comps ↔ 0 ≤ v < size g) ∧
    (∀ c, c ∈ comps → ∃ r rest, c = r :: rest ∧ ∀ b, b ∈ c ↔ scc g r b).
Proof.
  destruct (decide (size g = 0)) as [Hz|Hnz].
  { apply size_zero_nil in Hz as ->. exists []. split_and!; try done.
    - constructor.
    - intros v. simpl. rewrite elem_of_nil. unfold size. simpl. lia.
    - intros c Hc. by apply elem_of_nil in Hc. }
  destruct (findSCCs_fuel_spec (length g) g)
    as (vis1 & order & tr & vis2 & comps & _ & Htop & _ & _ & _ & Hrun & Hi & Hcov);
    [done..|].
  exists comps. split_and!; [done|by eapply ci_nodup| |].
  - intros v. split; [|apply Hcov].
    intros (c & Hvc & [i Hc]%list_elem_of_lookup)%list_elem_of_join.
    destruct (ci_comps _ _ _ _ Hi i c Hc) as (r & rest & j & _ & Hscc & Hj & _).
    eapply reach_in_range; [by apply Hscc|].
    eapply ti_range; [exact Htop|]. by eapply list_elem_of_lookup_2.
  - intros c [i Hc]%list_elem_of_lookup.
    eapply comp_ok_head. by eapply ci_comps.
Qed.

(** ** More fuel changes nothing *)

Lemma for_each_ok_mono {A S} (xs : list A) (f1 f2 : A → S → result S) :
  (∀ x s r, f1 x s = Ok r → f2 x s = Ok r) →
  ∀ s r, for_each xs f1 s = Ok r → for_each xs f2 s = Ok r.
Proof.
  intros Hf. induction xs as [|x xs IH]; intros s r; [done|].
  cbn [for_each]. destruct (f1 x s) as [s1| |] eqn:E; try discriminate.
  rewrite (Hf _ _ _ E). step. apply IH.
Qed.

Lemma neighbour_body_mono (n : Z)
    (rec1 rec2 : Z → list bool * list Z → result (list bool * list Z)) :
  (∀ w st r, rec1 w st = Ok r → rec2 w st = Ok r) →
  ∀ w st r,
    (if in_bounds n w then
       b ← at_ st.1 w; if negb b then rec1 w st else Ok st
     else Ok st) = Ok r →
    (if in_bounds n w then
       b ← at_ st.1 w; if negb b then rec2 w st else Ok st
     else Ok st) = Ok r.
Proof.
  intros Hrec w st r. destruct (in_bounds n w); [|done].
  destruct (at_ st.1 w) as [[]| |]; cbn [mbind result_bind negb]; auto.
Qed.

Lemma dfsFirstPass_fuel_S fuel : ∀ g x st r,
  dfsFirstPass fuel g x st = Ok r → dfsFirstPass (S fuel) g x st = Ok r.
Proof.
  induction fuel as [|fuel IH]; intros g x st r; [discriminate|].
  remember (S fuel) as fuel1 eqn:Hf1.
  rewrite Hf1 at 1. cbn [dfsFirstPass].
  destruct (set_at st.1 x true) as [vis| |]; try discriminate.
  destruct (at_ g x) as [ws| |]; try discriminate.
  step.
  destruct (for_each ws _ (vis, st.2)) as [st'| |] eqn:E; try discriminate.
  eapply for_each_ok_mono in E; [rewrite E; done|].
  apply neighbour_body_mono. intros w s r'. subst fuel1. apply IH.
Qed.

Lemma dfsSecondPass_fuel_S fuel : ∀ g x st r,
  dfsSecondPass fuel g x st = Ok r → dfsSecondPass (S fuel) g x st = Ok r.
Proof.
  induction fuel as [|fuel IH]; intros g x st r; [discriminate|].
  remember (S fuel) as fuel1 eqn:Hf1.
  rewrite Hf1 at 1. cbn [dfsSecondPass].
  destruct (set_at st.1 x true) as [vis| |]; try discriminate.
  destruct (at_ g x) as [ws| |]; try discriminate.
  step.
  apply for_each_ok_mono.
  apply neighbour_body_mono. intros w s r'. subst fuel1. apply IH.
Qed.

Lemma dfsFirstPass_fuel_le fuel fuel' g x st r :
  (fuel ≤ fuel')%nat →
  dfsFirstPass fuel g x st = Ok r → dfsFirstPass fuel' g x st = Ok r.
Proof. induction 1; [done|]. intros. by apply dfsFirstPass_fuel_S, IHle. Qed.

Lemma dfsSecondPass_fuel_le fuel fuel' g x st r :
  (fuel ≤ fuel')%nat →
  dfsSecondPass fuel g x st = Ok r → dfsSecondPass fuel' g x st = Ok r.
Proof. induction 1; [done|]. intros. by apply dfsSecondPass_fuel_S, IHle. Qed.

Lemma findSCCs_fuel_le fuel fuel' g r :
  (fuel ≤ fuel')%nat →
  findSCCs_fuel fuel g = Ok r → findSCCs_fuel fuel' g = Ok r.
Proof.
  intros Hle. unfold findSCCs_fuel. destruct (size g =? 0); [done|].
  destruct (finishOrder fuel g) as [st| |] eqn:E1; try discriminate.
  eapply for_each_ok_mono in E1.
  - unfold finishOrder. rewrite E1. step.
    destruct (buildTranspose g) as [tr| |]; try discriminate.
    step.
    destruct (componentPass fuel _ tr _ _) as [st2| |] eqn:E2; try discriminate.
    eapply for_each_ok_mono in E2.
    + unfold componentPass. rewrite E2. done.
    + intros i s r'. cbn beta.
      destruct (at_ st.2 i) as [v| |]; try discriminate.
      step.
      destruct (at_ s.1 v) as [[]| |]; try discriminate;
        cbn [mbind result_bind negb]; [done|].
      destruct (dfsSecondPass fuel tr v _) as [r2| |] eqn:E3; try discriminate.
      apply (dfsSecondPass_fuel_le _ fuel') in E3; [|done].
      rewrite E3. done.
  - intros v s r'. cbn beta.
    destruct (at_ s.1 v) as [[]| |]; try discriminate;
      cbn [mbind result_bind negb]; [done|].
    by apply dfsFirstPass_fuel_le.
Qed.

(** ** Edges whose target is not a node are ignored *)

Lemma size_dropOutOfRange g : size (dropOutOfRange g) = size g.
Proof. unfold size, dropOutOfRange. by rewrite length_fmap. Qed.

Lemma at_dropOutOfRange g x :
  at_ (dropOutOfRange g) x =
  match at_ g x with
  | Ok ws => Ok (filter (λ w, 0 ≤ w < size g) ws)
  | OutOfBounds => OutOfBounds
  | OutOfFuel => OutOfFuel
  end.
Proof.
  unfold at_, dropOutOfRange. case_bool_decide; [|done].
  rewrite list_lookup_fmap. by destruct (g !! Z.to_nat x).
Qed.

Lemma for_each_ext {A S} (xs : list A) (f1 f2 : A → S → result S) :
  (∀ x s, f1 x s = f2 x s) → ∀ s, for_each xs f1 s = for_each xs f2 s.
Proof.
  intros Hf. induction xs as [|x xs IH]; intros s; [done|].
  cbn [for_each]. rewrite Hf. destruct (f2 x s); cbn [mbind result_bind]; auto.
Qed.

Lemma for_each_filter {A S} (P : A → Prop) `{!∀ x, Decision (P x)}
    (xs : list A) (f : A → S → result S) :
  (∀ x s, ¬ P x → f x s = Ok s) →
  ∀ s, for_each (filter P xs) f s = for_each xs f s.
Proof.
  intros Hf. induction xs as [|x xs IH]; intros s; [done|].
  destruct (decide (P x)) as [HP|HP].
  - rewrite filter_cons_True by done. cbn [for_each].
    destruct (f x s); cbn [mbind result_bind]; auto.
  - rewrite filter_cons_False by done. cbn [for_each].
    rewrite Hf by done. step. apply IH.
Qed.

Lemma in_bounds_false n w : ¬ 0 ≤ w < n → in_bounds n w = false.
Proof.
  intros H. destruct (in_bounds n w) eqn:E; [|done].
  by apply in_bounds_true in E.
Qed.

Lemma dfsFirstPass_dropOutOfRange fuel g : ∀ x st,
  dfsFirstPass fuel (dropOutOfRange g) x st = dfsFirstPass fuel g x st.
Proof.
  induction fuel as [|fuel IH]; intros x st; [done|].
  cbn [dfsFirstPass]. rewrite size_dropOutOfRange, at_dropOutOfRange.
  destruct (set_at st.1 x true) as [vis| |]; [|done..].
  destruct (at_ g x) as [ws| |]; [|done..].
  step. rewrite for_each_filter.
  - erewrite for_each_ext; [done|]. intros w s. cbn beta.
    destruct (in_bounds (size g) w); [|done].
    destruct (at_ s.1 w) as [[]| |]; cbn [mbind result_bind negb]; auto.
  - intros w s Hw. by rewrite in_bounds_false.
Qed.

Lemma finishOrder_dropOutOfRange fuel g :
  finishOrder fuel (dropOutOfRange g) = finishOrder fuel g.
Proof.
  unfold finishOrder. rewrite size_dropOutOfRange.
  apply for_each_ext. intros v s.
  destruct (at_ s.1 v) as [[]| |]; cbn [mbind result_bind negb]; auto.
  apply dfsFirstPass_dropOutOfRange.
Qed.

Lemma buildTranspose_dropOutOfRange g :
  buildTranspose (dropOutOfRange g) = buildTranspose g.
Proof.
  unfold buildTranspose. rewrite size_dropOutOfRange.
  apply for_each_ext. intros v tr. rewrite at_dropOutOfRange.
  destruct (at_ g v) as [ws| |]; [|done..].
  step. apply for_each_filter.
  intros w s Hw. by rewrite in_bounds_false.
Qed.

Lemma findSCCs_fuel_dropOutOfRange fuel g :
  findSCCs_fuel fuel (dropOutOfRange g) = findSCCs_fuel fuel g.
Proof.
  unfold findSCCs_fuel.
  by rewrite size_dropOutOfRange, finishOrder_dropOutOfRange,
    buildTranspose_dropOutOfRange.
Qed.

(** ** A run of [findSCCs], phase by phase *)

Lemma findSCCs_run g :
  ∃ vis1 order tr vis2 comps,
    finishOrder (length g) g = Ok (vis1, order) ∧
    buildTranspose g = Ok tr ∧
    componentPass (length g) (size g) tr order (replicate (length g) false)
      = Ok (vis2, comps) ∧
    findSCCs g = Ok comps ∧
    top_inv g vis1 order ∧ (∀ v, 0 ≤ v < size g → v ∈ order) ∧
    comp_inv g order vis2 comps ∧ (∀ v, 0 ≤ v < size g → v ∈ mjoin comps).
Proof.
  destruct (decide (size g = 0)) as [Hz|Hnz].
  { apply size_zero_nil in Hz as ->.
    exists [], [], [], [], []. split_and!; try reflexivity.
    - apply (top_inv_init []).
    - unfold size. simpl. lia.
    - by apply (comp_inv_init [] [] 0%nat).
    - unfold size. simpl. lia. }
  destruct (findSCCs_fuel_spec (length g) g)
    as (vis1 & order & tr & vis2 & comps & ?); [done..|].
  exists vis1, order, tr, vis2, comps. unfold findSCCs. by destruct_and!.
Qed.

Lemma findSCCs_fuel_enough g fuel :
  (length g ≤ fuel)%nat → findSCCs_fuel fuel g = findSCCs g.
Proof.
  intros Hle. destruct (findSCCs_spec g) as (comps & Hrun & _).
  rewrite Hrun. by eapply findSCCs_fuel_le.
Qed.

Lemma join_disjoint (l : list (list Z)) : NoDup (mjoin l) →
  ∀ (i j : nat) a b, l !! i = Some a → l !! j = Some b → i ≠ j →
  ∀ v, v ∈ a → v ∉ b.
Proof.
  induction l as [|a0 l IH]; intros Hnd i j a b Hi Hj Hne v Ha Hb;
    [by destruct i|].
  change (mjoin (a0 :: l)) with (a0 ++ mjoin l) in Hnd.
  apply NoDup_app in Hnd as (_ & Hdisj & Hnd).
  destruct i as [|i], j as [|j]; simplify_eq/=.
  - apply (Hdisj v Ha), list_elem_of_join. exists b.
    split; [done | by eapply list_elem_of_lookup_2].
  - apply (Hdisj v Hb), list_elem_of_join. exists a.
    split; [done | by eapply list_elem_of_lookup_2].
  - eapply (IH Hnd i j a b); eauto.
Qed.

Lemma length_join_nonempty (l : list (list Z)) :
  (∀ c, c ∈ l → c ≠ []) → (length l ≤ length (mjoin l))%nat.
Proof.
  induction l as [|c l IH]; intros Hne; [done|].
  change (mjoin (c :: l)) with (c ++ mjoin l). rewrite length_app. simpl.
  assert (c ≠ []) as Hc by (apply Hne; by left).
  assert (length l ≤ length (mjoin l))%nat as Hl
    by (apply IH; intros c' Hc'; apply Hne; by right).
  destruct c; [done | simpl; lia].
Qed.

(** The roots of the components appear in [order] at decreasing indices. *)
Lemma comp_roots_decreasing g order vis comps :
  comp_inv g order vis comps →
  ∀ (i1 i2 : nat) c1 c2,
    comps !! i1 = Some c1 → comps !! i2 = Some c2 → (i1 < i2)%nat →
    ∃ r1 rest1 r2 rest2 (j1 j2 : nat),
      c1 = r1 :: rest1 ∧ c2 = r2 :: rest2 ∧
      order !! j1 = Some r1 ∧ order !! j2 = Some r2 ∧ (j2 < j1)%nat.
Proof.
  intros Hi i1 i2 c1 c2 H1 H2 Hlt.
  destruct (ci_comps _ _ _ _ Hi i1 c1 H1)
    as (r1 & rest1 & j1 & -> & _ & Hj1 & _ & Hafter1).
  destruct (ci_comps _ _ _ _ Hi i2 c2 H2)
    as (r2 & rest2 & j2 & -> & _ & Hj2 & Hnot2 & _).
  exists r1, rest1, r2, rest2, j1, j2. split_and!; try done.
  assert (∀ v, v ∈ mjoin (take i1 comps) → v ∈ mjoin (take i2 comps)) as Hsub.
  { intros v (c & Hv & [i Hc]%list_elem_of_lookup)%list_elem_of_join.
    apply lookup_take_Some in Hc as [Hc Hlt'].
    apply list_elem_of_join. exists c. split; [done|].
    apply list_elem_of_lookup. exists i. apply lookup_take_Some. split; [done|lia]. }
  assert (r1 ∈ mjoin (take i2 comps)) as Hr1.
  { apply list_elem_of_join. exists (r1 :: rest1). split; [by left|].
    apply list_elem_of_lookup. exists i1. by apply lookup_take_Some. }
  destruct (decide (j2 < j1)%nat) as [|Hge]; [done|]. exfalso. apply Hnot2.
  destruct (decide (j1 = j2)) as [->|Hne].
  - by assert (r2 = r1) as -> by congruence.
  - apply Hsub. eapply Hafter1; [exact Hj2 | lia].
Qed.

(** Each call of a traversal leaves what was pushed before untouched and
    pushes its root last (first pass) or first (second pass). *)
Lemma for_each_extends {A} (xs : list A)
    (f : A → list bool * list Z → result (list bool * list Z)) :
  (∀ x st r, f x st = Ok r → ∃ t, r.2 = st.2 ++ t) →
  ∀ st r, for_each xs f st = Ok r → ∃ t, r.2 = st.2 ++ t.
Proof.
  intros Hf. induction xs as [|x xs IH]; intros st r.
  { intros [= <-]. exists []. by rewrite app_nil_r. }
  cbn [for_each]. destruct (f x st) as [st1| |] eqn:E; try discriminate.
  step. intros Hr.
  destruct (Hf _ _ _ E) as [t1 Ht1]. destruct (IH _ _ Hr) as [t2 Ht2].
  exists (t1 ++ t2). by rewrite Ht2, Ht1, (assoc_L (++)).
Qed.

Lemma neighbour_body_extends (n : Z)
    (rec : Z → list bool * list Z → result (list bool * list Z)) :
  (∀ w st r, rec w st = Ok r → ∃ t, r.2 = st.2 ++ t) →
  ∀ w st r,
    (if in_bounds n w then
       b ← at_ st.1 w; if negb b then rec w st else Ok st
     else Ok st) = Ok r → ∃ t, r.2 = st.2 ++ t.
Proof.
  intros Hrec w st r.
  assert (Ok st = Ok r → ∃ t, r.2 = st.2 ++ t) as Hskip.
  { intros [= <-]. exists []. by rewrite app_nil_r. }
  destruct (in_bounds n w); [|done].
  destruct (at_ st.1 w) as [[]| |]; cbn [mbind result_bind negb];
    try done. apply Hrec.
Qed.

Lemma dfsFirstPass_root_last fuel : ∀ g v st r,
  dfsFirstPass fuel g v st = Ok r → ∃ t, r.2 = st.2 ++ t ++ [v].
Proof.
  induction fuel as [|fuel IH]; intros g v st r; [discriminate|].
  cbn [dfsFirstPass].
  destruct (set_at st.1 v true) as [vis| |]; try discriminate.
  destruct (at_ g v) as [ws| |]; try discriminate.
  step.
  destruct (for_each ws _ (vis, st.2)) as [st'| |] eqn:E; try discriminate.
  step. intros [= <-].
  apply for_each_extends in E as [t Ht].
  - exists t. cbn [snd] in *. by rewrite Ht, (assoc_L (++)).
  - apply neighbour_body_extends. intros w s r' Hr'.
    destruct (IH _ _ _ _ Hr') as [t Ht]. by exists (t ++ [w]).
Qed.

Lemma dfsSecondPass_root_first fuel : ∀ g v st r,
  dfsSecondPass fuel g v st = Ok r → ∃ t, r.2 = st.2 ++ v :: t.
Proof.
  induction fuel as [|fuel IH]; intros g v st r; [discriminate|].
  cbn [dfsSecondPass].
  destruct (set_at st.1 v true) as [vis| |]; try discriminate.
  destruct (at_ g v) as [ws| |]; try discriminate.
  step. intros E.
  apply for_each_extends in E as [t Ht].
  - exists t. cbn [snd] in *. by rewrite Ht, <- (assoc_L (++)).
  - apply neighbour_body_extends. intros w s r' Hr'.
    destruct (IH _ _ _ _ Hr') as [t Ht]. by exists (w :: t).
Qed.

(** * The scenarios of [testKosaraju] *)

Example findSCCs_triangle : findSCCs triangle = Ok [[0; 2; 1]].
Proof. reflexivity. Qed.

Example findSCCs_twoCycles : findSCCs twoCycles = Ok [[2; 3]; [0; 1]].
Proof. reflexivity. Qed.

Example findSCCs_empty : findSCCs [] = Ok [].
Proof. reflexivity. Qed.

Example findSCCs_single : findSCCs [[]] = Ok [[0]].
Proof. reflexivity. Qed.

Example findSCCs_complex : findSCCs complex = Ok [[0; 1; 3; 4; 2]].
Proof. reflexivity. Qed.

Example findSCCs_selfLoop : findSCCs [[0]] = Ok [[0]].
Proof. reflexivity. Qed.

Example findSCCs_withStrayEdges :
  findSCCs withStrayEdges = Ok [[3]; [0]; [1]; [2]].
Proof. reflexivity. Qed.

Example finishOrder_withStrayEdges :
  finishOrder 4 withStrayEdges = Ok ([true; true; true; true], [2; 1; 0; 3]).
Proof. reflexivity. Qed.

Example buildTranspose_withStrayEdges :
  buildTranspose withStrayEdges = Ok [[3]; [0; 3]; [1]; []].
Proof. reflexivity. Qed.

(** * The specification, claim by claim *)

(** C1 (mutual reachability and maximality): for every graph [g] and any
    two node indices [u], [v] in [0, n), [u] and [v] appear in the same
    component of [findSCCs g] if and only if each is reachable from the
    other along edges of [g] whose targets lie in [0, n). *)
Theorem findSCCs_mutual_reachability (g : Graph) :
  ∃ comps, findSCCs g = Ok comps ∧
    ∀ u v, 0 ≤ u < size g → 0 ≤ v < size g →
      (∃ c, c ∈ comps ∧ u ∈ c ∧ v ∈ c) ↔ reach g v u ∧ reach g u v.
Proof.
  destruct (findSCCs_spec g) as (comps & Hrun & _ & Hcov & Hscc).
  exists comps. split; [done|]. intros u v Hu Hv. split.
  - intros (c & Hc & Huc & Hvc).
    destruct (Hscc c Hc) as (r & rest & _ & Hmem).
    apply Hmem in Huc, Hvc.
    apply (scc_trans g v r u); [by apply scc_sym | done].
  - intros Huv.
    apply Hcov in Hu as (c & Huc & Hc)%list_elem_of_join.
    exists c. split_and!; [done..|].
    destruct (Hscc c Hc) as (r & rest & _ & Hmem).
    apply Hmem. apply (scc_trans g r u v); [by apply Hmem | by apply scc_sym].
Qed.

(** In [twoCycles] the nodes 2 and 3 share a component and 1 and 2 do not:
    2 and 3 reach each other, 1 and 2 do not. *)
Lemma findSCCs_mutual_reachability_witness :
  (0 ≤ 1 < size twoCycles ∧ 0 ≤ 2 < size twoCycles ∧ 0 ≤ 3 < size twoCycles) ∧
  findSCCs twoCycles = Ok [[2; 3]; [0; 1]] ∧
  (reach twoCycles 3 2 ∧ reach twoCycles 2 3) ∧
  ¬ (reach twoCycles 2 1 ∧ reach twoCycles 1 2).
Proof.
  assert (0 ≤ 1 < size twoCycles ∧ 0 ≤ 2 < size twoCycles ∧
          0 ≤ 3 < size twoCycles) as Hr by (unfold size; simpl; lia).
  destruct Hr as (H1 & H2 & H3).
  destruct (findSCCs_mutual_reachability twoCycles) as (comps & Hrun & H).
  vm_compute in Hrun. injection Hrun as <-.
  split_and!; try done.
  - apply (H 2 3 H2 H3). exists [2; 3].
    split_and!; [by left | by left | by right; left].
  - apply (H 2 3 H2 H3). exists [2; 3].
    split_and!; [by left | by left | by right; left].
  - intros Hm. apply (H 1 2 H1 H2) in Hm as (c & Hc & Hc1 & Hc2).
    apply elem_of_cons in Hc as [->|Hc].
    + by repeat (apply elem_of_cons in Hc1 as [?|Hc1]);
        [..|apply elem_of_nil in Hc1].
    + apply elem_of_cons in Hc as [->|Hc]; [|by apply elem_of_nil in Hc].
      by repeat (apply elem_of_cons in Hc2 as [?|Hc2]);
        [..|apply elem_of_nil in Hc2].
Defined.

(** C2 (partition): the result of [findSCCs g] is a partition of [0, n):
    every node index lies in exactly one component, two distinct components
    share no node, and the components together hold exactly the indices of
    [0, n), each once. *)
Theorem findSCCs_partition (g : Graph) :
  ∃ comps, findSCCs g = Ok comps ∧
    (∀ v, 0 ≤ v < size g →
       ∃ (i : nat) c, comps !! i = Some c ∧ v ∈ c ∧
         ∀ (i' : nat) c', comps !! i' = Some c' → v ∈ c' → i' = i) ∧
    (∀ (i j : nat) ci cj, comps !! i = Some ci → comps !! j = Some cj →
       i ≠ j → ∀ v, v ∈ ci → v ∉ cj) ∧
    (∀ v, (∃ c, c ∈ comps ∧ v ∈ c) ↔ 0 ≤ v < size g) ∧
    mjoin comps ≡ₚ seqZ 0 (size g).
Proof.
  destruct (findSCCs_spec g) as (comps & Hrun & Hnd & Hcov & _).
  pose proof (join_disjoint comps Hnd) as Hdisj.
  exists comps. split_and!; [done| |done| |].
  - intros v (c & Hvc & [i Hc]%list_elem_of_lookup)%Hcov%list_elem_of_join.
    exists i, c. split_and!; [done..|]. intros i' c' Hc' Hvc'.
    destruct (decide (i' = i)) as [|Hne]; [done|].
    by destruct (Hdisj i' i c' c Hc' Hc Hne v).
  - intros v. rewrite <- Hcov, list_elem_of_join.
    split; intros (c & ? & ?); by exists c.
  - apply NoDup_Permutation; [done | apply NoDup_seqZ |].
    intros v. rewrite Hcov, elem_of_seqZ. lia.
Qed.

Lemma findSCCs_partition_witness :
  ∃ comps, findSCCs twoCycles = Ok comps ∧
    (∀ v, 0 ≤ v < size twoCycles →
       ∃ (i : nat) c, comps !! i = Some c ∧ v ∈ c ∧
         ∀ (i' : nat) c', comps !! i' = Some c' → v ∈ c' → i' = i) ∧
    (∀ (i j : nat) ci cj, comps !! i = Some ci → comps !! j = Some cj →
       i ≠ j → ∀ v, v ∈ ci → v ∉ cj) ∧
    (∀ v, (∃ c, c ∈ comps ∧ v ∈ c) ↔ 0 ≤ v < size twoCycles) ∧
    mjoin comps ≡ₚ seqZ 0 (size twoCycles).
Proof. exact (findSCCs_partition twoCycles). Defined.

(** C3 (count): [countSCCs g] is the length of [findSCCs g]; for n = 0 the
    result is the empty sequence and the count is 0; for n > 0 the count is
    between 1 and n. *)
Theorem countSCCs_bounds (g : Graph) :
  ∃ comps, findSCCs g = Ok comps ∧
    countSCCs g = Ok (size comps) ∧
    (size g = 0 → comps = [] ∧ countSCCs g = Ok 0) ∧
    (0 < size g → 1 ≤ size comps ≤ size g).
Proof.
  destruct (findSCCs_spec g) as (comps & Hrun & Hnd & Hcov & Hscc).
  assert (countSCCs g = Ok (size comps)) as Hcount
    by (unfold countSCCs; by rewrite Hrun).
  assert (length (mjoin comps) = length g) as Hlen.
  { assert (mjoin comps ≡ₚ seqZ 0 (size g)) as ->.
    { apply NoDup_Permutation; [done | apply NoDup_seqZ |].
      intros v. rewrite Hcov, elem_of_seqZ. lia. }
    rewrite length_seqZ. unfold size. lia. }
  assert (length comps ≤ length g)%nat as Hle.
  { rewrite <- Hlen. apply length_join_nonempty.
    intros c Hc. by destruct (Hscc c Hc) as (r & rest & -> & _). }
  exists comps. split_and!; [done..| |].
  - intros Hz. unfold size in Hz.
    assert (comps = []) as -> by (destruct comps; [done | simpl in Hle; lia]).
    by rewrite Hcount.
  - intros Hpos. unfold size in *. split; [|lia].
    destruct comps as [|c comps]; [|simpl; lia].
    simpl in Hlen. lia.
Qed.

Lemma countSCCs_bounds_witness :
  ∃ comps, findSCCs triangle = Ok comps ∧
    countSCCs triangle = Ok (size comps) ∧
    (size triangle = 0 → comps = [] ∧ countSCCs triangle = Ok 0) ∧
    (0 < size triangle → 1 ≤ size comps ≤ size triangle).
Proof. exact (countSCCs_bounds triangle). Defined.

(** C4 (finishing order): the first pass produces a permutation [order] of
    [0, n).  It is a depth-first post-order with roots taken in ascending
    index order: every call pushes its own node after everything it pushed
    meanwhile; a neighbour in range of a node is pushed no later than the
    node, unless it leads back to the node (it was being visited); and a
    node pushed no later than [u] is reachable from a root that is at most
    [u]. *)
Theorem finishOrder_permutation_postorder (g : Graph) :
  ∃ visited order,
    finishOrder (length g) g = Ok (visited, order) ∧
    order ≡ₚ seqZ 0 (size g) ∧
    (∀ fuel v st r, dfsFirstPass fuel g v st = Ok r →
       ∃ t, r.2 = st.2 ++ t ++ [v]) ∧
    (∀ a b, a ∈ order → edge g a b → fin_le order b a ∨ reach g b a) ∧
    (∀ y u, fin_le order y u → ∃ u', 0 ≤ u' ≤ u ∧ reach g u' y).
Proof.
  destruct (finishOrder_spec (length g) g) as (vis & order & Hrun & Htop & Hall & Hasc);
    [done|].
  exists vis, order. split_and!; [done| | | |].
  - by eapply top_inv_permutation.
  - intros fuel v st r. apply dfsFirstPass_root_last.
  - by eapply ti_post.
  - intros y u Hle. destruct (Hasc y u Hle) as (u' & ? & _ & ?). by exists u'.
Qed.

Lemma finishOrder_permutation_postorder_witness :
  ∃ visited order,
    finishOrder (length complex) complex = Ok (visited, order) ∧
    order ≡ₚ seqZ 0 (size complex) ∧
    (∀ fuel v st r, dfsFirstPass fuel complex v st = Ok r →
       ∃ t, r.2 = st.2 ++ t ++ [v]) ∧
    (∀ a b, a ∈ order → edge complex a b →
       fin_le order b a ∨ reach complex b a) ∧
    (∀ y u, fin_le order y u → ∃ u', 0 ≤ u' ≤ u ∧ reach complex u' y).
Proof. exact (finishOrder_permutation_postorder complex). Defined.

(** C5 (transpose): the transpose built by [findSCCs] has n node slots and
    holds the edge [w -> v] once for every occurrence of the edge [v -> w]
    of [g] with [w] in [0, n); an occurrence whose target is outside
    [0, n) contributes nothing. *)
Theorem buildTranspose_mirrors_edges (g : Graph) :
  ∃ transpose, buildTranspose g = Ok transpose ∧
    size transpose = size g ∧
    ∀ v w, mult transpose w v =
           if in_bounds (size g) w then mult g v w else 0%nat.
Proof.
  destruct (buildTranspose_spec g) as (tr & Hrun & Hsize & Hm).
  exists tr. split_and!; [done..|]. intros v w. apply Hm.
Qed.

Lemma buildTranspose_mirrors_edges_witness :
  ∃ transpose, buildTranspose withStrayEdges = Ok transpose ∧
    size transpose = size withStrayEdges ∧
    ∀ v w, mult transpose w v =
           if in_bounds (size withStrayEdges) w then mult withStrayEdges v w
           else 0%nat.
Proof. exact (buildTranspose_mirrors_edges withStrayEdges). Defined.

(** C6 (emission order): the component pass runs on a fresh all-false
    visited array of size n; the components come out in the order in which
    their roots are met when the finishing order is read from its last
    element to its first, so that the root of an earlier component has a
    greater index in [order] than the root of a later one. *)
Theorem components_by_decreasing_finish (g : Graph) :
  ∃ visited order transpose visited' comps,
    finishOrder (length g) g = Ok (visited, order) ∧
    buildTranspose g = Ok transpose ∧
    componentPass (length g) (size g) transpose order
      (replicate (length g) false) = Ok (visited', comps) ∧
    findSCCs g = Ok comps ∧
    ∀ (i1 i2 : nat) c1 c2,
      comps !! i1 = Some c1 → comps !! i2 = Some c2 → (i1 < i2)%nat →
      ∃ r1 rest1 r2 rest2 (j1 j2 : nat),
        c1 = r1 :: rest1 ∧ c2 = r2 :: rest2 ∧
        order !! j1 = Some r1 ∧ order !! j2 = Some r2 ∧ (j2 < j1)%nat.
Proof.
  destruct (findSCCs_run g)
    as (vis1 & order & tr & vis2 & comps & H1 & H2 & H3 & H4 & _ & _ & Hi & _).
  exists vis1, order, tr, vis2, comps. split_and!; [done..|].
  by eapply comp_roots_decreasing.
Qed.

Lemma components_by_decreasing_finish_witness :
  ∃ visited order transpose visited' comps,
    finishOrder (length twoCycles) twoCycles = Ok (visited, order) ∧
    buildTranspose twoCycles = Ok transpose ∧
    componentPass (length twoCycles) (size twoCycles) transpose order
      (replicate (length twoCycles) false) = Ok (visited', comps) ∧
    findSCCs twoCycles = Ok comps ∧
    ∀ (i1 i2 : nat) c1 c2,
      comps !! i1 = Some c1 → comps !! i2 = Some c2 → (i1 < i2)%nat →
      ∃ r1 rest1 r2 rest2 (j1 j2 : nat),
        c1 = r1 :: rest1 ∧ c2 = r2 :: rest2 ∧
        order !! j1 = Some r1 ∧ order !! j2 = Some r2 ∧ (j2 < j1)%nat.
Proof. exact (components_by_decreasing_finish twoCycles). Defined.

(** C7 (tolerance): edge targets outside [0, n) are skipped, never an
    error: [findSCCs g] returns normally, and returns what it returns on
    the graph with these targets removed from the adjacency lists. *)
Theorem findSCCs_ignores_out_of_range (g : Graph) :
  ∃ comps, findSCCs g = Ok comps ∧ findSCCs (dropOutOfRange g) = Ok comps.
Proof.
  destruct (findSCCs_spec g) as (comps & Hrun & _).
  exists comps. split; [done|]. unfold findSCCs in *.
  rewrite findSCCs_fuel_dropOutOfRange.
  unfold dropOutOfRange. by rewrite length_fmap.
Qed.

Lemma findSCCs_ignores_out_of_range_witness :
  ∃ comps, findSCCs withStrayEdges = Ok comps ∧
           findSCCs (dropOutOfRange withStrayEdges) = Ok comps.
Proof. exact (findSCCs_ignores_out_of_range withStrayEdges). Defined.

(** C8 (termination): [findSCCs] returns on every graph, whatever its
    cycles, self-loops and duplicate edges: a recursion depth of n is
    enough, and more changes nothing.  In each pass a node is visited, and
    so pushed, at most once. *)
Theorem findSCCs_terminates (g : Graph) :
  ∃ visited order comps,
    finishOrder (length g) g = Ok (visited, order) ∧
    findSCCs g = Ok comps ∧
    (∀ fuel, (length g ≤ fuel)%nat → findSCCs_fuel fuel g = Ok comps) ∧
    NoDup order ∧ NoDup (mjoin comps).
Proof.
  destruct (findSCCs_run g)
    as (vis1 & order & tr & vis2 & comps & H1 & _ & _ & H4 & Htop & _ & Hi & _).
  exists vis1, order, comps. split_and!; [done..| | |].
  - intros fuel Hle. rewrite <- H4. by apply findSCCs_fuel_enough.
  - by eapply ti_nodup.
  - by eapply ci_nodup.
Qed.

Lemma findSCCs_terminates_witness :
  ∃ visited order comps,
    finishOrder (length complex) complex = Ok (visited, order) ∧
    findSCCs complex = Ok comps ∧
    (∀ fuel, (length complex ≤ fuel)%nat → findSCCs_fuel fuel complex = Ok comps) ∧
    NoDup order ∧ NoDup (mjoin comps).
Proof. exact (findSCCs_terminates complex). Defined.

(** C9 (determinism): two invocations of [findSCCs] on the same graph
    yield the same sequence of components, with the same order of nodes
    inside each; the outcome does not depend on the recursion budget either,
    as long as it is at least n. *)
Theorem findSCCs_deterministic (g : Graph) (fuel1 fuel2 : nat) :
  (length g ≤ fuel1)%nat → (length g ≤ fuel2)%nat →
  ∃ comps, findSCCs_fuel fuel1 g = Ok comps ∧
           findSCCs_fuel fuel2 g = Ok comps ∧
           findSCCs g = Ok comps.
Proof.
  intros H1 H2. destruct (findSCCs_spec g) as (comps & Hrun & _).
  exists comps. rewrite !findSCCs_fuel_enough by done. done.
Qed.

Lemma findSCCs_deterministic_witness :
  ((length complex ≤ 5)%nat ∧ (length complex ≤ 9)%nat) ∧
  ∃ comps, findSCCs_fuel 5 complex = Ok comps ∧
           findSCCs_fuel 9 complex = Ok comps ∧
           findSCCs complex = Ok comps.
Proof.
  assert ((length complex ≤ 5)%nat ∧ (length complex ≤ 9)%nat) as H
    by (simpl; lia).
  split; [exact H|].
  exact (findSCCs_deterministic complex 5 9 (proj1 H) (proj2 H)).
Defined.

(** C10 (roots): every component of [findSCCs g] is non-empty and starts
    with the root of its traversal: the node of greatest index in [order],
    i.e. the first one met reading [order] backwards, that is in none of the
    components emitted before.  A traversal of the second pass pushes its
    own node first. *)
Theorem component_head_is_root (g : Graph) :
  (∀ fuel transpose v st r,
     dfsSecondPass fuel transpose v st = Ok r → ∃ t, r.2 = st.2 ++ v :: t) ∧
  ∃ visited order comps,
    finishOrder (length g) g = Ok (visited, order) ∧
    findSCCs g = Ok comps ∧
    ∀ (i : nat) c, comps !! i = Some c →
      ∃ r rest (j : nat),
        c = r :: rest ∧ order !! j = Some r ∧
        (r ∉ mjoin (take i comps)) ∧
        ∀ (j' : nat) v, order !! j' = Some v → (j < j')%nat →
                        v ∈ mjoin (take i comps).
Proof.
  split; [intros fuel tr v st r; apply dfsSecondPass_root_first|].
  destruct (findSCCs_run g)
    as (vis1 & order & tr & vis2 & comps & H1 & _ & _ & H4 & _ & _ & Hi & _).
  exists vis1, order, comps. split_and!; [done..|].
  intros i c Hc.
  destruct (ci_comps _ _ _ _ Hi i c Hc) as (r & rest & j & ? & _ & ? & ? & ?).
  by exists r, rest, j.
Qed.

Lemma component_head_is_root_witness :
  (∀ fuel transpose v st r,
     dfsSecondPass fuel transpose v st = Ok r → ∃ t, r.2 = st.2 ++ v :: t) ∧
  ∃ visited order comps,
    finishOrder (length complex) complex = Ok (visited, order) ∧
    findSCCs complex = Ok comps ∧
    ∀ (i : nat) c, comps !! i = Some c →
      ∃ r rest (j : nat),
        c = r :: rest ∧ order !! j = Some r ∧
        (r ∉ mjoin (take i comps)) ∧
        ∀ (j' : nat) v, order !! j' = Some v → (j < j')%nat →
                        v ∈ mjoin (take i comps).
Proof. exact (component_head_is_root complex). Defined.

(** * Further properties of the code *)

(** ** Counting classes *)

Lemma findSCCs_classes g :
  ∃ comps, findSCCs g = Ok comps ∧
    NoDup (mjoin comps) ∧
    (∀ v, v ∈ mjoin comps ↔ 0 ≤ v < size g) ∧
    Forall (class_of (scc g)) comps.
Proof.
  destruct (findSCCs_spec g) as (comps & Hrun & Hnd & Hcov & Hscc).
  exists comps. split_and!; [done..|].
  apply Forall_forall. intros c Hc. by apply Hscc.
Qed.

(** Classes of a coarser relation are at most as many as the classes of a
    finer one that cover them. *)
Lemma classes_length_le (R1 R2 : relation Z) (l1 : list (list Z)) :
  (∀ a b, R1 a b → R1 b a) → (∀ a b c, R1 a b → R1 b c → R1 a c) →
  (∀ a b, R2 a b → R1 a b) →
  ∀ l2 : list (list Z),
    NoDup (mjoin l1) → Forall (class_of R1) l1 → Forall (class_of R2) l2 →
    (∀ v, v ∈ mjoin l1 → v ∈ mjoin l2) →
    (length l1 ≤ length l2)%nat.
Proof.
  intros Hsym Htrans Hsub.
  induction l1 as [|c l1 IH]; intros l2 Hnd H1 H2 Hcov; [simpl; lia|].
  change (mjoin (c :: l1)) with (c ++ mjoin l1) in *.
  apply NoDup_app in Hnd as (_ & Hdisj & Hnd).
  apply Forall_cons in H1 as [(r & rest & -> & Hc) H1].
  assert (r ∈ mjoin l2) as (c' & Hrc' & Hc')%list_elem_of_join.
  { apply Hcov, elem_of_app. left. by left. }
  apply list_elem_of_split in Hc' as (l2a & l2b & ->).
  rewrite Forall_app, Forall_cons in H2.
  destruct H2 as (H2a & (r' & rest' & -> & Hc') & H2b).
  assert (length l1 ≤ length (l2a ++ l2b))%nat as Hle.
  { apply IH; [done..|by apply Forall_app|].
    intros v Hv.
    assert (v ∈ mjoin (l2a ++ (r' :: rest') :: l2b)) as Hv2.
    { apply Hcov, elem_of_app. by right. }
    rewrite join_app in Hv2. rewrite join_app.
    change (mjoin ((r' :: rest') :: l2b)) with ((r' :: rest') ++ mjoin l2b) in Hv2.
    rewrite !elem_of_app in Hv2. rewrite elem_of_app.
    destruct Hv2 as [?|[Hv'|?]]; [by left| |by right].
    exfalso. apply (Hdisj v); [|done].
    apply Hc. apply Hc' in Hrc', Hv'.
    eapply Htrans; [apply Hsym, Hsub; exact Hrc' | by apply Hsub]. }
  rewrite length_app in *. simpl. lia.
Qed.

Lemma classes_length_eq (R : relation Z) (l1 l2 : list (list Z)) :
  (∀ a b, R a b → R b a) → (∀ a b c, R a b → R b c → R a c) →
  NoDup (mjoin l1) → NoDup (mjoin l2) →
  Forall (class_of R) l1 → Forall (class_of R) l2 →
  (∀ v, v ∈ mjoin l1 ↔ v ∈ mjoin l2) →
  length l1 = length l2.
Proof.
  intros Hsym Htrans Hn1 Hn2 H1 H2 Hcov.
  apply Nat.le_antisymm;
    (eapply (classes_length_le R R); [done..| |done|done|]; [done|]);
    intros v; apply Hcov.
Qed.

Lemma together_class (R : relation Z) (comps : list (list Z)) :
  (∀ a b, R a b → R b a) → (∀ a b c, R a b → R b c → R a c) →
  Forall (class_of R) comps →
  ∀ u v, u ∈ mjoin comps → (together comps u v ↔ R u v).
Proof.
  intros Hsym Htrans Hcl u v Hu. rewrite Forall_forall in Hcl. split.
  - intros (c & Hc & Huc & Hvc).
    destruct (Hcl c Hc) as (r & rest & _ & Hmem).
    apply Hmem in Huc, Hvc. eauto.
  - intros Huv. apply list_elem_of_join in Hu as (c & Huc & Hc).
    exists c. split_and!; [done..|].
    destruct (Hcl c Hc) as (r & rest & _ & Hmem).
    apply Hmem. apply Hmem in Huc. eauto.
Qed.

Lemma scc_equiv_edges g1 g2 :
  (∀ a b, edge g1 a b → edge g2 a b) → ∀ a b, scc g1 a b → scc g2 a b.
Proof.
  intros He a b [H1 H2]. split; (eapply rtc_subrel; [|eassumption]); done.
Qed.

Lemma class_of_ext (R1 R2 : relation Z) (c : list Z) :
  (∀ a b, R1 a b ↔ R2 a b) → class_of R1 c → class_of R2 c.
Proof.
  intros HR (r & rest & -> & Hc). exists r, rest. split; [done|].
  intros b. by rewrite Hc, HR.
Qed.

Lemma together_elem comps u v : together comps u v → u ∈ mjoin comps.
Proof. intros (c & Hc & Hu & _). apply list_elem_of_join. by exists c. Qed.

Lemma partitions_agree (R : relation Z) (comps1 comps2 : list (list Z)) :
  (∀ a b, R a b → R b a) → (∀ a b c, R a b → R b c → R a c) →
  NoDup (mjoin comps1) → NoDup (mjoin comps2) →
  Forall (class_of R) comps1 → Forall (class_of R) comps2 →
  (∀ v, v ∈ mjoin comps1 ↔ v ∈ mjoin comps2) →
  (∀ u v, together comps1 u v ↔ together comps2 u v) ∧
  length comps1 = length comps2.
Proof.
  intros Hsym Htrans Hn1 Hn2 H1 H2 Hcov. split; [|by eapply classes_length_eq].
  intros u v. split; intros Ht; pose proof (together_elem _ _ _ Ht) as Hu.
  - apply (together_class R); [done..|by apply Hcov|].
    by apply (together_class R comps1).
  - apply (together_class R); [done..|by apply Hcov|].
    by apply (together_class R comps2).
Qed.

Lemma reach_out_of_range g u v : ¬ 0 ≤ u < size g → reach g u v → u = v.
Proof.
  intros Hu Hr. destruct Hr as [|u w v Huw _]; [done|].
  by apply edge_source in Huw.
Qed.

Lemma NoDup_join_elem (l : list (list Z)) c :
  NoDup (mjoin l) → c ∈ l → NoDup c.
Proof.
  intros Hnd (l1 & l2 & ->)%list_elem_of_split.
  rewrite join_app in Hnd. apply NoDup_app in Hnd as (_ & _ & Hnd).
  change (mjoin (c :: l2)) with (c ++ mjoin l2) in Hnd.
  by apply NoDup_app in Hnd as (? & _ & _).
Qed.

Lemma length_join_singletons (l : list (list Z)) :
  (∀ c, c ∈ l → c ≠ []) →
  length l = length (mjoin l) ↔ Forall (λ c, length c = 1%nat) l.
Proof.
  induction l as [|c l IH]; intros Hne.
  { split; [constructor | done]. }
  change (mjoin (c :: l)) with (c ++ mjoin l). rewrite length_app, Forall_cons.
  assert (c ≠ []) as Hc by (apply Hne; by left).
  assert (∀ c', c' ∈ l → c' ≠ []) as Hne' by (intros c' Hc'; apply Hne; by right).
  pose proof (length_join_nonempty l Hne') as Hle.
  specialize (IH Hne'). simpl.
  destruct c as [|x c]; [done|]. simpl in *. split.
  - intros Heq. split; [lia|]. apply IH. lia.
  - intros [Hx Hl]. apply IH in Hl. lia.
Qed.

(** An earlier component is not reachable from a later one. *)
Lemma comp_inv_topological g vis1 order vis2 comps :
  top_inv g vis1 order → (∀ v, 0 ≤ v < size g → v ∈ order) →
  comp_inv g order vis2 comps →
  ∀ (i j : nat) ci cj a b,
    comps !! i = Some ci → comps !! j = Some cj →
    a ∈ ci → b ∈ cj → reach g a b → (i ≤ j)%nat.
Proof.
  intros Htop Hall Hi i j ci cj a b Hci Hcj Ha Hb Hab.
  destruct (decide (i ≤ j)%nat) as [|Hlt]; [done|]. exfalso.
  assert (j < i)%nat as Hji by lia. clear Hlt.
  destruct (ci_comps _ _ _ _ Hi i ci Hci)
    as (ri & resti & pi & -> & Hsi & Hpi & Hni & Hafti).
  destruct (ci_comps _ _ _ _ Hi j cj Hcj)
    as (rj & restj & pj & -> & Hsj & Hpj & _ & Haftj).
  assert (∀ v, v ∈ mjoin (take j comps) → v ∈ mjoin (take i comps)) as Hsub.
  { intros v (c & Hv & [k Hc]%list_elem_of_lookup)%list_elem_of_join.
    apply lookup_take_Some in Hc as [Hc Hlt'].
    apply list_elem_of_join. exists c. split; [done|].
    apply list_elem_of_lookup. exists k. apply lookup_take_Some. split; [done|lia]. }
  assert (rj ∈ mjoin (take i comps)) as Hrj.
  { apply list_elem_of_join. exists (rj :: restj). split; [by left|].
    apply list_elem_of_lookup. exists j. by apply lookup_take_Some. }
  (* the root of the later component comes first in [order] *)
  assert (pi < pj)%nat as Hpij.
  { destruct (decide (pi < pj)%nat) as [|Hge]; [done|]. exfalso. apply Hni.
    destruct (decide (pi = pj)) as [->|Hne].
    - by assert (ri = rj) as -> by congruence.
    - apply Hsub. eapply Haftj; [exact Hpi | lia]. }
  (* but [a] reaches [rj], so a node of [a]'s component comes no earlier *)
  assert (0 ≤ ri < size g) as Hri.
  { eapply ti_range; [exact Htop|]. by eapply list_elem_of_lookup_2. }
  apply Hsi in Ha. apply Hsj in Hb.
  assert (0 ≤ a < size g) as Har by (eapply reach_in_range; [apply Ha|done]).
  assert (reach g a rj) as Harj by (eapply rtc_trans; [exact Hab | apply Hb]).
  destruct (ti_ord _ _ _ Htop a rj (Hall a Har) Harj)
    as (z & Hz & p & q & Hp & Hq & Hpq).
  assert (p = pj) as -> by (eapply NoDup_lookup; [by eapply ti_nodup|done..]).
  assert (z ∈ ri :: resti) as Hzi by (apply Hsi; by eapply scc_trans).
  destruct (decide (q ≤ pi)%nat) as [|Hgt]; [lia|].
  assert (z ∈ mjoin (take i comps)) as Hzpre by (eapply Hafti; [exact Hq|lia]).
  apply list_elem_of_join in Hzpre as (c & Hzc & [k Hc]%list_elem_of_lookup).
  apply lookup_take_Some in Hc as [Hc Hk].
  eapply (join_disjoint comps (ci_nodup _ _ _ _ Hi) k i c (ri :: resti)); eauto.
  lia.
Qed.

Lemma edge_same_rows g1 g2 :
  Forall2 (λ ws1 ws2 : list Z,
             ∀ b, 0 ≤ b < size g1 → b ∈ ws1 ↔ b ∈ ws2) g1 g2 →
  ∀ a b, edge g1 a b ↔ edge g2 a b.
Proof.
  intros Hrows a b.
  assert (size g1 = size g2) as Hsz
    by (unfold size; by rewrite (Forall2_length _ _ _ Hrows)).
  unfold edge. setoid_rewrite at_Ok. rewrite <- Hsz. split.
  - intros (ws & [Ha Hws] & Hb & Hr).
    destruct (Forall2_lookup_l _ _ _ _ _ Hrows Hws) as (ws2 & Hws2 & Hrel).
    exists ws2. split; [done|]. split; [by apply Hrel | done].
  - intros (ws & [Ha Hws] & Hb & Hr).
    destruct (Forall2_lookup_r _ _ _ _ _ Hrows Hws) as (ws1 & Hws1 & Hrel).
    exists ws1. split; [done|]. split; [by apply Hrel | done].
Qed.

(** ** The order and the number of the components *)

(** X1 (topological order): the components come out in a topological order
    of the condensation: when a node of the component at position [i]
    reaches a node of the component at position [j], then [i <= j].  No
    edge leads from a later component back to an earlier one. *)
Theorem findSCCs_topological_order (g : Graph) :
  ∃ comps, findSCCs g = Ok comps ∧
    ∀ (i j : nat) ci cj a b,
      comps !! i = Some ci → comps !! j = Some cj →
      a ∈ ci → b ∈ cj → reach g a b → (i ≤ j)%nat.
Proof.
  destruct (findSCCs_run g)
    as (vis1 & order & tr & vis2 & comps & _ & _ & _ & Hrun & Htop & Hall & Hi & _).
  exists comps. split; [done|]. by eapply comp_inv_topological.
Qed.

(** In [[0 -> 1; 1 -> 2, 1 -> 1; 2 -> 1]] node 0 is emitted before the
    cycle of 1 and 2 that it leads to. *)
Lemma findSCCs_topological_order_witness :
  findSCCs [[1]; [2; 1]; [1]] = Ok [[0]; [1; 2]] ∧
  reach [[1]; [2; 1]; [1]] 0 2 ∧ (0 ≤ 1)%nat.
Proof.
  destruct (findSCCs_topological_order [[1]; [2; 1]; [1]]) as (comps & Hrun & H).
  vm_compute in Hrun. injection Hrun as <-.
  assert (reach [[1]; [2; 1]; [1]] 0 2) as Hr.
  { eapply rtc_l; [|apply rtc_once].
    - exists [1]. split_and!; [done|by left|done|done].
    - exists [2; 1]. split_and!; [done|by left|done|done]. }
  split_and!; [done..|].
  apply (H 0%nat 1%nat [0] [1; 2] 0 2); [done|done|by left|by right; left|done].
Defined.

(** X2 (one component): [countSCCs] is 1 exactly for the non-empty strongly
    connected graphs, those in which every node reaches every node; the
    single component then holds every node once. *)
Theorem countSCCs_one_iff_strongly_connected (g : Graph) :
  (countSCCs g = Ok 1 ↔
   0 < size g ∧ ∀ u v, 0 ≤ u < size g → 0 ≤ v < size g → reach g u v) ∧
  (∀ c, findSCCs g = Ok [c] → c ≡ₚ seqZ 0 (size g)).
Proof.
  destruct (findSCCs_spec g) as (comps & Hrun & Hnd & Hcov & Hscc).
  assert (countSCCs g = Ok (size comps)) as ->
    by (unfold countSCCs; by rewrite Hrun).
  split; [split|].
  - intros [= Hone].
    destruct comps as [|c [|??]]; try (unfold size in Hone; simpl in Hone; lia).
    destruct (Hscc c) as (r & rest & -> & Hmem); [by left|].
    assert (∀ u, 0 ≤ u < size g → scc g r u) as Hall.
    { intros u Hu. apply Hmem. apply Hcov in Hu. simpl in Hu.
      by rewrite app_nil_r in Hu. }
    assert (0 ≤ r < size g) as Hr
      by (apply Hcov; simpl; rewrite app_nil_r; by left).
    split; [lia|]. intros u v Hu Hv.
    eapply rtc_trans; [apply (Hall u Hu) | apply (Hall v Hv)].
  - intros [Hpos Hall]. f_equal.
    destruct comps as [|c1 [|c2 comps]].
    + assert (0 ∈ mjoin (@nil (list Z))) as H0 by (apply Hcov; lia).
      by apply elem_of_nil in H0.
    + done.
    + exfalso.
      destruct (Hscc c1) as (r1 & rest1 & -> & Hm1); [by left|].
      destruct (Hscc c2) as (r2 & rest2 & -> & Hm2); [by right; left|].
      assert (0 ≤ r1 < size g ∧ 0 ≤ r2 < size g) as [Hr1 Hr2].
      { split; apply Hcov, list_elem_of_join.
        - exists (r1 :: rest1). split; by left.
        - exists (r2 :: rest2). split; [by left | by right; left]. }
      eapply (join_disjoint _ Hnd 0%nat 1%nat (r1 :: rest1) (r2 :: rest2) eq_refl eq_refl);
        [done| |by left].
      apply Hm1. split; by apply Hall.
  - intros c Hc. rewrite Hrun in Hc. injection Hc as ->.
    simpl in Hnd, Hcov. rewrite app_nil_r in Hnd.
    apply NoDup_Permutation; [done | apply NoDup_seqZ |].
    intros v. specialize (Hcov v). rewrite app_nil_r in Hcov.
    rewrite elem_of_seqZ, Hcov. lia.
Qed.

Lemma countSCCs_one_iff_strongly_connected_witness :
  (countSCCs triangle = Ok 1 ↔
   0 < size triangle ∧
   ∀ u v, 0 ≤ u < size triangle → 0 ≤ v < size triangle → reach triangle u v) ∧
  (findSCCs triangle = Ok [[0; 2; 1]] ∧ [0; 2; 1] ≡ₚ seqZ 0 (size triangle)).
Proof.
  destruct (countSCCs_one_iff_strongly_connected triangle) as [H1 H2].
  split; [exact H1|]. split; [reflexivity|]. apply H2. reflexivity.
Defined.

(** X3 (n components): [countSCCs] is the number of nodes exactly when no
    two distinct nodes reach each other; every component is then a single
    node. *)
Theorem countSCCs_n_iff_no_mutual_reach (g : Graph) :
  ∃ comps, findSCCs g = Ok comps ∧
    (countSCCs g = Ok (size g) ↔
     ∀ u v, reach g u v → reach g v u → u = v) ∧
    (countSCCs g = Ok (size g) → Forall (λ c, ∃ r, c = [r]) comps).
Proof.
  destruct (findSCCs_spec g) as (comps & Hrun & Hnd & Hcov & Hscc).
  exists comps. split; [done|].
  assert (countSCCs g = Ok (size comps)) as ->
    by (unfold countSCCs; by rewrite Hrun).
  assert (length (mjoin comps) = length g) as Hlen.
  { assert (mjoin comps ≡ₚ seqZ 0 (size g)) as ->.
    { apply NoDup_Permutation; [done | apply NoDup_seqZ |].
      intros v. rewrite Hcov, elem_of_seqZ. lia. }
    rewrite length_seqZ. unfold size. lia. }
  assert (∀ c, c ∈ comps → c ≠ []) as Hne.
  { intros c Hc. by destruct (Hscc c Hc) as (r & rest & -> & _). }
  assert (Ok (size comps) = Ok (size g) ↔ Forall (λ c, length c = 1%nat) comps)
    as Hiff.
  { rewrite <- (length_join_singletons comps Hne), Hlen. unfold size.
    split; [intros [= H]; lia | by intros ->]. }
  split.
  - rewrite Hiff, Forall_forall. split.
    + intros Hone u v Huv Hvu.
      destruct (decide (0 ≤ u < size g)) as [Hu|Hu];
        [|by eapply reach_out_of_range].
      apply Hcov in Hu as (c & Huc & Hc)%list_elem_of_join.
      destruct (Hscc c Hc) as (r & rest & -> & Hmem).
      specialize (Hone _ Hc). destruct rest; [|done].
      assert (v ∈ [r]) as Hv.
      { apply Hmem. apply Hmem in Huc. apply (scc_trans g r u v); [done | by split]. }
      apply list_elem_of_singleton in Huc, Hv. congruence.
    + intros Hno c Hc. destruct (Hscc c Hc) as (r & rest & -> & Hmem).
      pose proof (NoDup_join_elem _ _ Hnd Hc) as Hndc.
      destruct rest as [|x rest]; [done|]. exfalso.
      assert (scc g r x) as [H1 H2] by (apply Hmem; by right; left).
      apply NoDup_cons in Hndc as [Hr _]. apply Hr.
      rewrite (Hno r x H1 H2). by left.
  - rewrite Hiff. intros HF. eapply Forall_impl; [exact HF|]. intros c Hc.
    destruct c as [|r [|??]]; try done. by exists r.
Qed.

Lemma countSCCs_n_iff_no_mutual_reach_witness :
  ∃ comps, findSCCs withStrayEdges = Ok comps ∧
    (countSCCs withStrayEdges = Ok (size withStrayEdges) ↔
     ∀ u v, reach withStrayEdges u v → reach withStrayEdges v u → u = v) ∧
    (countSCCs withStrayEdges = Ok (size withStrayEdges) →
     Forall (λ c, ∃ r, c = [r]) comps).
Proof. exact (countSCCs_n_iff_no_mutual_reach withStrayEdges). Defined.

Lemma scc_trans_rel g : ∀ a b c, scc g a b → scc g b c → scc g a c.
Proof. intros a b c. apply scc_trans. Qed.

(** X4 (only the edges matter): two graphs with the same number of nodes
    and the same edges between nodes, whatever the order of the adjacency
    lists, the repetitions in them and the targets that are not nodes, get
    the same grouping of nodes into components and the same count. *)
Theorem findSCCs_depends_on_edges_only (g1 g2 : Graph) :
  size g1 = size g2 → (∀ a b, edge g1 a b ↔ edge g2 a b) →
  ∃ comps1 comps2,
    findSCCs g1 = Ok comps1 ∧ findSCCs g2 = Ok comps2 ∧
    (∀ u v, together comps1 u v ↔ together comps2 u v) ∧
    countSCCs g1 = countSCCs g2.
Proof.
  intros Hsz He.
  destruct (findSCCs_classes g1) as (comps1 & Hrun1 & Hnd1 & Hcov1 & Hcl1).
  destruct (findSCCs_classes g2) as (comps2 & Hrun2 & Hnd2 & Hcov2 & Hcl2).
  assert (∀ a b, scc g2 a b ↔ scc g1 a b) as Hscc.
  { intros a b. split; apply scc_equiv_edges; intros ??; by apply He. }
  destruct (partitions_agree (scc g1) comps1 comps2) as [Htog Hlen];
    [apply scc_sym | apply scc_trans_rel | done | done | done | |
     intros v; by rewrite Hcov1, Hcov2, Hsz |].
  { eapply Forall_impl; [exact Hcl2|]. intros c. by apply class_of_ext. }
  exists comps1, comps2. split_and!; [done..|].
  unfold countSCCs. rewrite Hrun1, Hrun2. unfold size. simpl. by rewrite Hlen.
Qed.

Lemma findSCCs_depends_on_edges_only_witness :
  (size [[1; 1; 7]; [2; 0]; [0]] = size [[1]; [0; 2; 0]; [-4; 0]] ∧
   ∀ a b, edge [[1; 1; 7]; [2; 0]; [0]] a b ↔
          edge [[1]; [0; 2; 0]; [-4; 0]] a b) ∧
  ∃ comps1 comps2,
    findSCCs [[1; 1; 7]; [2; 0]; [0]] = Ok comps1 ∧
    findSCCs [[1]; [0; 2; 0]; [-4; 0]] = Ok comps2 ∧
    (∀ u v, together comps1 u v ↔ together comps2 u v) ∧
    countSCCs [[1; 1; 7]; [2; 0]; [0]] = countSCCs [[1]; [0; 2; 0]; [-4; 0]].
Proof.
  assert (size [[1; 1; 7]; [2; 0]; [0]] = size [[1]; [0; 2; 0]; [-4; 0]] ∧
          ∀ a b, edge [[1; 1; 7]; [2; 0]; [0]] a b ↔
                 edge [[1]; [0; 2; 0]; [-4; 0]] a b) as H.
  { split; [reflexivity|]. apply edge_same_rows.
    constructor; [|constructor; [|constructor; [|constructor]]];
      intros b Hb; unfold size in Hb; simpl in Hb;
      rewrite !elem_of_cons, !elem_of_nil; lia. }
  split; [exact H|].
  exact (findSCCs_depends_on_edges_only _ _ (proj1 H) (proj2 H)).
Defined.

(** X5 (more edges, fewer components): adding edges to a graph only merges
    components: nodes that were together stay together, and [countSCCs]
    does not grow. *)
Theorem findSCCs_more_edges_merge (g1 g2 : Graph) :
  size g1 = size g2 → (∀ a b, edge g1 a b → edge g2 a b) →
  ∃ comps1 comps2,
    findSCCs g1 = Ok comps1 ∧ findSCCs g2 = Ok comps2 ∧
    (∀ u v, together comps1 u v → together comps2 u v) ∧
    size comps2 ≤ size comps1.
Proof.
  intros Hsz He.
  destruct (findSCCs_classes g1) as (comps1 & Hrun1 & Hnd1 & Hcov1 & Hcl1).
  destruct (findSCCs_classes g2) as (comps2 & Hrun2 & Hnd2 & Hcov2 & Hcl2).
  exists comps1, comps2. split_and!; [done..| |].
  - intros u v Ht. pose proof (together_elem _ _ _ Ht) as Hu.
    apply (together_class (scc g2));
      [apply scc_sym | apply scc_trans_rel | done | |].
    + apply Hcov2. rewrite <- Hsz. by apply Hcov1.
    + apply (scc_equiv_edges g1 g2 He).
      by apply (together_class (scc g1) comps1);
        [apply scc_sym | apply scc_trans_rel | ..].
  - unfold size. apply inj_le.
    apply (classes_length_le (scc g2) (scc g1));
      [apply scc_sym | apply scc_trans_rel | apply scc_equiv_edges, He |
       done | done | done |].
    intros v. rewrite Hcov1, Hcov2, Hsz. done.
Qed.

Lemma findSCCs_more_edges_merge_witness :
  (size [[1]; [2]; []] = size triangle ∧
   ∀ a b, edge [[1]; [2]; []] a b → edge triangle a b) ∧
  ∃ comps1 comps2,
    findSCCs [[1]; [2]; []] = Ok comps1 ∧ findSCCs triangle = Ok comps2 ∧
    (∀ u v, together comps1 u v → together comps2 u v) ∧
    size comps2 ≤ size comps1.
Proof.
  assert (size [[1]; [2]; []] = size triangle ∧
          ∀ a b, edge [[1]; [2]; []] a b → edge triangle a b) as H.
  { split; [reflexivity|]. intros a b (ws & Ha & Hb & Hr).
    apply at_Ok in Ha as [Ha0 Ha].
    destruct (Z.to_nat a) as [|[|[|n]]] eqn:E; simplify_eq/=.
    - exists [1]. split; [apply at_Ok; by rewrite E|]. split; [done | exact Hr].
    - exists [2]. split; [apply at_Ok; by rewrite E|]. split; [done | exact Hr].
    - by apply elem_of_nil in Hb. }
  split; [exact H|].
  exact (findSCCs_more_edges_merge _ _ (proj1 H) (proj2 H)).
Defined.

(** X6 (the transpose has the same components): run on the transpose that
    [findSCCs] builds, [findSCCs] groups the nodes as it does on the graph
    itself, and counts as many components. *)
Theorem findSCCs_transpose_same_partition (g : Graph) :
  ∃ transpose comps comps',
    buildTranspose g = Ok transpose ∧
    findSCCs g = Ok comps ∧ findSCCs transpose = Ok comps' ∧
    (∀ u v, together comps u v ↔ together comps' u v) ∧
    countSCCs transpose = countSCCs g.
Proof.
  destruct (buildTranspose_spec g) as (tr & Htr & Hsz & Hm).
  pose proof (transpose_edge g tr Hsz Hm) as He.
  destruct (findSCCs_classes g) as (comps & Hrun & Hnd & Hcov & Hcl).
  destruct (findSCCs_classes tr) as (comps' & Hrun' & Hnd' & Hcov' & Hcl').
  assert (∀ a b, scc tr a b ↔ scc g a b) as Hscc.
  { intros a b. split; intros [H1 H2]; split.
    - by apply (transpose_reach g tr He).
    - by apply (transpose_reach g tr He).
    - apply (transpose_reach tr g); [intros ??; symmetry; apply He | done].
    - apply (transpose_reach tr g); [intros ??; symmetry; apply He | done]. }
  destruct (partitions_agree (scc g) comps comps') as [Htog Hlen];
    [apply scc_sym | apply scc_trans_rel | done | done | done | |
     intros v; by rewrite Hcov, Hcov', Hsz |].
  { eapply Forall_impl; [exact Hcl'|]. intros c. by apply class_of_ext. }
  exists tr, comps, comps'. split_and!; [done..|].
  unfold countSCCs. rewrite Hrun, Hrun'. unfold size. simpl. by rewrite Hlen.
Qed.

Lemma findSCCs_transpose_same_partition_witness :
  ∃ transpose comps comps',
    buildTranspose complex = Ok transpose ∧
    findSCCs complex = Ok comps ∧ findSCCs transpose = Ok comps' ∧
    (∀ u v, together comps u v ↔ together comps' u v) ∧
    countSCCs transpose = countSCCs complex.
Proof. exact (findSCCs_transpose_same_partition complex). Defined.

(** ** The traversals on their own *)

Lemma white_ext (vis1 vis2 : list bool) :
  length vis1 = length vis2 → (∀ y, white vis1 y ↔ white vis2 y) → vis1 = vis2.
Proof.
  intros Hlen Hw. apply list_eq. intros i.
  destruct (vis1 !! i) as [b1|] eqn:E1, (vis2 !! i) as [b2|] eqn:E2.
  - f_equal. specialize (Hw (Z.of_nat i)). unfold white in Hw.
    rewrite !at_Ok, Nat2Z.id, E1, E2 in Hw.
    destruct b1, b2; try done.
    + assert (Some true = Some false) by (apply Hw; split; [lia|done]). done.
    + assert (Some true = Some false) by (apply Hw; split; [lia|done]). done.
  - apply lookup_lt_Some in E1. apply lookup_ge_None in E2. lia.
  - apply lookup_lt_Some in E2. apply lookup_ge_None in E1. lia.
  - done.
Qed.

Lemma no_white_all_true (vis : list bool) :
  (∀ y, ¬ white vis y) → vis = replicate (length vis) true.
Proof.
  intros Hw. apply white_ext; [by rewrite length_replicate|].
  intros y. split; [by intros ?%Hw|].
  intros [_ [Heq _]%lookup_replicate]%at_Ok. done.
Qed.

Lemma dfs_post_exact g vis x vis' t :
  dfs_post g vis x vis' t →
  NoDup t ∧ (∀ y, y ∈ t ↔ wreach g vis x y) ∧
  (∀ y, white vis' y ↔ white vis y ∧ ¬ wreach g vis x y).
Proof.
  intros Hp.
  assert (∀ y, y ∈ t ↔ wreach g vis x y) as Hmem.
  { intros y. split; [by intros [_ ?]%(dp_reach _ _ _ _ _ Hp)|].
    by eapply dfs_post_complete. }
  split_and!; [by eapply dp_nodup | done |].
  intros y. rewrite (dp_white _ _ _ _ _ Hp). by rewrite Hmem.
Qed.

(** X7 (white paths): started at an unvisited node [x], with a recursion
    budget of at least the number of unvisited nodes, [dfsFirstPass] returns
    having pushed, once each, exactly the nodes that [x] reaches along
    unvisited nodes, and having marked exactly those. *)
Theorem dfsFirstPass_white_path (fuel : nat) (g : Graph) (x : Z)
    (visited : list bool) (order : list Z) :
  length visited = length g → white visited x → (wcount visited ≤ fuel)%nat →
  ∃ visited' t,
    dfsFirstPass fuel g x (visited, order) = Ok (visited', order ++ t) ∧
    NoDup t ∧
    (∀ y, y ∈ t ↔ wreach g visited x y) ∧
    (∀ y, white visited' y ↔ white visited y ∧ ¬ wreach g visited x y).
Proof.
  intros Hlen Hx Hfuel.
  destruct (dfsFirstPass_spec fuel g x visited order Hlen Hx Hfuel)
    as (vis' & t & Hrun & Hp & _).
  exists vis', t. split; [done|]. by eapply dfs_post_exact.
Qed.

Lemma dfsFirstPass_white_path_witness :
  (length [true; false; false; false; false] = length complex ∧
   white [true; false; false; false; false] 3 ∧
   (wcount [true; false; false; false; false] ≤ 4)%nat) ∧
  ∃ visited' t,
    dfsFirstPass 4 complex 3 ([true; false; false; false; false], [0])
      = Ok (visited', [0] ++ t) ∧
    NoDup t ∧
    (∀ y, y ∈ t ↔ wreach complex [true; false; false; false; false] 3 y) ∧
    (∀ y, white visited' y ↔
          white [true; false; false; false; false] y ∧
          ¬ wreach complex [true; false; false; false; false] 3 y).
Proof.
  assert (length [true; false; false; false; false] = length complex ∧
          white [true; false; false; false; false] 3 ∧
          (wcount [true; false; false; false; false] ≤ 4)%nat) as H
    by (split_and!; [reflexivity | reflexivity | vm_compute; lia]).
  split; [exact H|].
  exact (dfsFirstPass_white_path 4 complex 3 _ [0]
           (proj1 H) (proj1 (proj2 H)) (proj2 (proj2 H))).
Defined.

(** X8 (the two traversals visit alike): from the same unvisited node of
    the same graph, with the same markers, [dfsFirstPass] and
    [dfsSecondPass] leave the same markers and push the same nodes;
    the first pushes the start node last, the second first. *)
Theorem dfs_passes_visit_alike (fuel : nat) (g : Graph) (x : Z)
    (visited : list bool) (order component : list Z) :
  length visited = length g → white visited x → (wcount visited ≤ fuel)%nat →
  ∃ visited' t1 t2,
    dfsFirstPass fuel g x (visited, order) = Ok (visited', order ++ t1) ∧
    dfsSecondPass fuel g x (visited, component)
      = Ok (visited', component ++ t2) ∧
    t1 ≡ₚ t2 ∧ last t1 = Some x ∧ head t2 = Some x.
Proof.
  intros Hlen Hx Hfuel.
  destruct (dfsFirstPass_spec fuel g x visited order Hlen Hx Hfuel)
    as (vis1 & t1 & Hrun1 & Hp1 & _ & _ & t1' & ->).
  destruct (dfsSecondPass_spec fuel g x visited component Hlen Hx Hfuel)
    as (vis2 & t2 & Hrun2 & Hp2 & t2' & ->).
  destruct (dfs_post_exact _ _ _ _ _ Hp1) as (Hn1 & Hm1 & Hw1).
  destruct (dfs_post_exact _ _ _ _ _ Hp2) as (Hn2 & Hm2 & Hw2).
  assert (vis2 = vis1) as ->.
  { apply white_ext.
    - by rewrite (dp_len _ _ _ _ _ Hp1), (dp_len _ _ _ _ _ Hp2).
    - intros y. by rewrite Hw1, Hw2. }
  exists vis1, (t1' ++ [x]), (x :: t2'). split_and!; [done..| | |done].
  - apply NoDup_Permutation; [done..|]. intros y. by rewrite Hm1, Hm2.
  - apply last_snoc.
Qed.

Lemma dfs_passes_visit_alike_witness :
  (length [false; false; false; false; false] = length complex ∧
   white [false; false; false; false; false] 1 ∧
   (wcount [false; false; false; false; false] ≤ 5)%nat) ∧
  ∃ visited' t1 t2,
    dfsFirstPass 5 complex 1 ([false; false; false; false; false], [])
      = Ok (visited', [] ++ t1) ∧
    dfsSecondPass 5 complex 1 ([false; false; false; false; false], [])
      = Ok (visited', [] ++ t2) ∧
    t1 ≡ₚ t2 ∧ last t1 = Some 1 ∧ head t2 = Some 1.
Proof.
  assert (length [false; false; false; false; false] = length complex ∧
          white [false; false; false; false; false] 1 ∧
          (wcount [false; false; false; false; false] ≤ 5)%nat) as H
    by (split_and!; [reflexivity | reflexivity | vm_compute; lia]).
  split; [exact H|].
  exact (dfs_passes_visit_alike 5 complex 1 _ [] []
           (proj1 H) (proj1 (proj2 H)) (proj2 (proj2 H))).
Defined.

Lemma marks_kept_refl s : marks_kept s s.
Proof. by split. Qed.

Lemma marks_kept_trans s1 s2 s3 :
  marks_kept s1 s2 → marks_kept s2 s3 → marks_kept s1 s3.
Proof. intros [H1 H1'] [H2 H2']. split; [congruence | auto]. Qed.

Lemma for_each_marks_kept {A} (xs : list A)
    (f : A → list bool * list Z → result (list bool * list Z)) :
  (∀ x s r, f x s = Ok r → marks_kept s r) →
  ∀ s r, for_each xs f s = Ok r → marks_kept s r.
Proof.
  intros Hf. induction xs as [|x xs IH]; intros s r.
  { intros [= <-]. apply marks_kept_refl. }
  cbn [for_each]. destruct (f x s) as [s1| |] eqn:E; try discriminate.
  step. intros Hr. eapply marks_kept_trans; [by eapply Hf | by eapply IH].
Qed.

Lemma neighbour_body_marks_kept (n : Z)
    (rec : Z → list bool * list Z → result (list bool * list Z)) :
  (∀ w st r, rec w st = Ok r → marks_kept st r) →
  ∀ w st r,
    (if in_bounds n w then
       b ← at_ st.1 w; if negb b then rec w st else Ok st
     else Ok st) = Ok r → marks_kept st r.
Proof.
  intros Hrec w st r.
  assert (Ok st = Ok r → marks_kept st r) as Hskip
    by (intros [= <-]; apply marks_kept_refl).
  destruct (in_bounds n w); [|done].
  destruct (at_ st.1 w) as [[]| |]; cbn [mbind result_bind negb];
    try done. apply Hrec.
Qed.

Lemma set_at_marks (vis vis' : list bool) (v : Z) (acc acc' : list Z) :
  set_at vis v true = Ok vis' →
  marks_kept (vis, acc) (vis', acc') ∧ at_ vis' v = Ok true.
Proof.
  unfold set_at. case_bool_decide as Hv; [|done]. intros [= <-].
  unfold size in Hv. split; [split|]; cbn [fst].
  - apply length_insert.
  - intros i [Hi Hl]%at_Ok. apply at_Ok. split; [done|].
    destruct (decide (Z.to_nat v = Z.to_nat i)) as [->|Hne].
    + rewrite list_lookup_insert_eq; [done | by eapply lookup_lt_Some].
    + by rewrite list_lookup_insert_ne.
  - apply at_Ok. split; [lia|]. rewrite list_lookup_insert_eq; [done|lia].
Qed.

Lemma dfsFirstPass_marks_kept fuel : ∀ g v st r,
  dfsFirstPass fuel g v st = Ok r →
  marks_kept st r ∧ at_ r.1 v = Ok true.
Proof.
  induction fuel as [|fuel IH]; intros g v st r; [discriminate|].
  cbn [dfsFirstPass].
  destruct (set_at st.1 v true) as [vis| |] eqn:Hset; try discriminate.
  destruct (at_ g v) as [ws| |]; try discriminate.
  step.
  destruct (for_each ws _ (vis, st.2)) as [st'| |] eqn:E; try discriminate.
  step. intros [= <-].
  apply (set_at_marks _ _ _ st.2 st.2) in Hset as [Hk Hv].
  apply for_each_marks_kept in E.
  - destruct E as [E1 E2]. cbn [fst] in *. split; [|by apply E2].
    destruct Hk as [Hk1 Hk2]. split; cbn [fst] in *; [congruence|].
    intros i Hi. by apply E2, Hk2.
  - apply neighbour_body_marks_kept. intros w s r' Hr'.
    by destruct (IH _ _ _ _ Hr').
Qed.

Lemma dfsSecondPass_marks_kept fuel : ∀ g v st r,
  dfsSecondPass fuel g v st = Ok r →
  marks_kept st r ∧ at_ r.1 v = Ok true.
Proof.
  induction fuel as [|fuel IH]; intros g v st r; [discriminate|].
  cbn [dfsSecondPass].
  destruct (set_at st.1 v true) as [vis| |] eqn:Hset; try discriminate.
  destruct (at_ g v) as [ws| |]; try discriminate.
  step. intros E.
  apply (set_at_marks _ _ _ st.2 (st.2 ++ [v])) in Hset as [Hk Hv].
  apply for_each_marks_kept in E.
  - destruct E as [E1 E2]. cbn [fst] in *. split; [|by apply E2].
    destruct Hk as [Hk1 Hk2]. split; cbn [fst] in *; [congruence|].
    intros i Hi. by apply E2, Hk2.
  - apply neighbour_body_marks_kept. intros w s r' Hr'.
    by destruct (IH _ _ _ _ Hr').
Qed.

(** X9 (markers are only ever set): whatever the graph, the start node and
    the markers, a call of [dfsFirstPass] or [dfsSecondPass] that returns
    has kept the length of the marker vector, has cleared no marker, and
    has set the marker of its start node. *)
Theorem dfs_never_clears_a_marker (fuel : nat) (g : Graph) (v : Z)
    (st r : list bool * list Z) :
  dfsFirstPass fuel g v st = Ok r ∨ dfsSecondPass fuel g v st = Ok r →
  length r.1 = length st.1 ∧
  (∀ i, at_ st.1 i = Ok true → at_ r.1 i = Ok true) ∧
  at_ r.1 v = Ok true.
Proof.
  intros [H|H].
  - by destruct (dfsFirstPass_marks_kept _ _ _ _ _ H) as [[? ?] ?].
  - by destruct (dfsSecondPass_marks_kept _ _ _ _ _ H) as [[? ?] ?].
Qed.

(** A call on a graph with edges to nodes already visited and to targets
    that are not nodes, started with too short a history of markers to be
    one of [findSCCs]'s own calls. *)
Lemma dfs_never_clears_a_marker_witness :
  (dfsFirstPass 2 withStrayEdges 3 ([true; false; true; false], [5])
     = Ok ([true; true; true; true], [5; 1; 3]) ∨
   dfsSecondPass 2 withStrayEdges 3 ([true; false; true; false], [5])
     = Ok ([true; true; true; true], [5; 1; 3])) ∧
  length [true; true; true; true] = length [true; false; true; false] ∧
  (∀ i, at_ [true; false; true; false] i = Ok true →
        at_ [true; true; true; true] i = Ok true) ∧
  at_ [true; true; true; true] 3 = Ok true.
Proof.
  assert (dfsFirstPass 2 withStrayEdges 3 ([true; false; true; false], [5])
            = Ok ([true; true; true; true], [5; 1; 3]) ∨
          dfsSecondPass 2 withStrayEdges 3 ([true; false; true; false], [5])
            = Ok ([true; true; true; true], [5; 1; 3])) as H
    by (left; reflexivity).
  split; [exact H|].
  exact (dfs_never_clears_a_marker 2 withStrayEdges 3 _ _ H).
Defined.

(** X10 (everything ends up visited): when the loop over the roots of the
    first pass ends, every marker is set, and likewise when the component
    pass ends. *)
Theorem passes_end_all_visited (g : Graph) :
  ∃ order transpose comps,
    finishOrder (length g) g = Ok (replicate (length g) true, order) ∧
    buildTranspose g = Ok transpose ∧
    componentPass (length g) (size g) transpose order
      (replicate (length g) false) = Ok (replicate (length g) true, comps).
Proof.
  destruct (findSCCs_run g)
    as (vis1 & order & tr & vis2 & comps & H1 & H2 & H3 & _ & Htop & Hall & Hi & Hcov).
  assert (vis1 = replicate (length g) true) as Hv1.
  { rewrite <- (ti_len _ _ _ Htop). apply no_white_all_true.
    intros y [Hy Hn]%(ti_white _ _ _ Htop). by apply Hn, Hall. }
  assert (vis2 = replicate (length g) true) as Hv2.
  { rewrite <- (ci_len _ _ _ _ Hi). apply no_white_all_true.
    intros y [Hy Hn]%(ci_white _ _ _ _ Hi). by apply Hn, Hcov. }
  rewrite Hv1 in H1. rewrite Hv2 in H3. by exists order, tr, comps.
Qed.

Lemma passes_end_all_visited_witness :
  ∃ order transpose comps,
    finishOrder (length withStrayEdges) withStrayEdges
      = Ok (replicate (length withStrayEdges) true, order) ∧
    buildTranspose withStrayEdges = Ok transpose ∧
    componentPass (length withStrayEdges) (size withStrayEdges) transpose order
      (replicate (length withStrayEdges) false)
      = Ok (replicate (length withStrayEdges) true, comps).
Proof. exact (passes_end_all_visited withStrayEdges). Defined.

(** ** The transpose, twice and row by row *)

Lemma occ_app x l k : occ x (l ++ k) = (occ x l + occ x k)%nat.
Proof. unfold occ. by rewrite filter_app, length_app. Qed.

Lemma occ_filter (P : Z → Prop) `{!∀ x, Decision (P x)} x l :
  occ x (filter P l) = if decide (P x) then occ x l else 0%nat.
Proof.
  induction l as [|y l IH].
  { unfold occ. simpl. by case_decide. }
  destruct (decide (P y)) as [Hy|Hy].
  - rewrite filter_cons_True, !occ_cons, IH by done.
    repeat case_decide; subst; done.
  - rewrite filter_cons_False, occ_cons, IH by done.
    repeat case_decide; subst; done.
Qed.

Lemma occ_permutation (l k : list Z) :
  (∀ x, occ x l = occ x k) → l ≡ₚ k.
Proof.
  revert k. induction l as [|a l IH]; intros k Hocc.
  - destruct k as [|b k]; [done|].
    specialize (Hocc b). rewrite occ_cons, decide_True in Hocc by done.
    unfold occ in Hocc. simpl in Hocc. lia.
  - assert (a ∈ k) as (k1 & k2 & ->)%list_elem_of_split.
    { apply occ_pos. rewrite <- Hocc, occ_cons, decide_True by done. lia. }
    rewrite <- Permutation_middle. f_equiv. apply IH.
    intros x. specialize (Hocc x).
    rewrite occ_cons, !occ_app, occ_cons in Hocc. rewrite occ_app. lia.
Qed.

Lemma mult_dropOutOfRange g v w :
  mult (dropOutOfRange g) v w =
  if in_bounds (size g) w then mult g v w else 0%nat.
Proof.
  unfold mult. rewrite at_dropOutOfRange.
  destruct (at_ g v) as [ws| |]; try by destruct (in_bounds _ _).
  rewrite occ_filter. case_decide as Hw.
  - by rewrite (proj2 (in_bounds_true _ _) Hw).
  - by rewrite in_bounds_false.
Qed.

Lemma mult_rows_permutation (g1 g2 : list (list Z)) :
  size g1 = size g2 → (∀ v w, mult g1 v w = mult g2 v w) →
  Forall2 (≡ₚ) g1 g2.
Proof.
  intros Hsz Hm. apply Forall2_same_length_lookup_2.
  { unfold size in Hsz. lia. }
  intros i x y Hx Hy. apply occ_permutation. intros w.
  specialize (Hm (Z.of_nat i) w). unfold mult in Hm.
  assert (at_ g1 (Z.of_nat i) = Ok x) as Hx'
    by (apply at_Ok; rewrite Nat2Z.id; split; [lia|done]).
  assert (at_ g2 (Z.of_nat i) = Ok y) as Hy'
    by (apply at_Ok; rewrite Nat2Z.id; split; [lia|done]).
  by rewrite Hx', Hy' in Hm.
Qed.

(** X11 (transposing twice): the transpose of the transpose is the graph
    itself, up to the order inside the adjacency lists and without the
    targets that are not nodes: every edge between nodes is back, as many
    times as it occurs. *)
Theorem buildTranspose_twice (g : Graph) :
  ∃ transpose back,
    buildTranspose g = Ok transpose ∧ buildTranspose transpose = Ok back ∧
    (∀ v w, mult back v w = mult (dropOutOfRange g) v w) ∧
    Forall2 (≡ₚ) back (dropOutOfRange g).
Proof.
  destruct (buildTranspose_spec g) as (tr & Htr & Hsz & Hm).
  destruct (buildTranspose_spec tr) as (tt & Htt & Hsz' & Hm').
  assert (∀ v w, mult tt v w = mult (dropOutOfRange g) v w) as Hmult.
  { intros v w. rewrite Hm', Hm, Hsz, mult_dropOutOfRange.
    destruct (in_bounds (size g) v) eqn:Hv; [done|].
    destruct (in_bounds (size g) w); [|done].
    unfold mult. destruct (at_ g v) as [ws| |] eqn:E; try done.
    apply at_in_range, in_bounds_true in E. congruence. }
  exists tr, tt. split_and!; [done..|].
  apply mult_rows_permutation; [|done].
  rewrite size_dropOutOfRange. congruence.
Qed.

Lemma buildTranspose_twice_witness :
  ∃ transpose back,
    buildTranspose withStrayEdges = Ok transpose ∧
    buildTranspose transpose = Ok back ∧
    (∀ v w, mult back v w = mult (dropOutOfRange withStrayEdges) v w) ∧
    Forall2 (≡ₚ) back (dropOutOfRange withStrayEdges).
Proof. exact (buildTranspose_twice withStrayEdges). Defined.

Lemma ascending_snoc row k :
  ascending row → Forall (λ v, v ≤ k) row → ascending (row ++ [k]).
Proof.
  intros Hasc Hle i j a b Hi Hj Hij.
  apply lookup_snoc_Some in Hi as [[Hi1 Hi]|[-> <-]];
    apply lookup_snoc_Some in Hj as [[Hj1 Hj]|[-> <-]].
  - by eapply Hasc.
  - by eapply (Forall_lookup_1 _ _ _ _ Hle).
  - lia.
  - lia.
Qed.

Lemma buildTranspose_inner_ascending n k ws : ∀ tr tr',
  for_each ws (λ w transpose,
    if in_bounds n w then push_back_at transpose w k else Ok transpose) tr
  = Ok tr' →
  Forall (λ row, ascending row ∧ Forall (λ v, v ≤ k) row) tr →
  Forall (λ row, ascending row ∧ Forall (λ v, v ≤ k) row) tr'.
Proof.
  induction ws as [|w ws IH]; intros tr tr'; [by intros [= <-]|].
  cbn [for_each]. destruct (in_bounds n w); [|apply IH].
  unfold push_back_at. case_bool_decide; [|done]. step.
  intros Hrun Hrows. eapply IH; [exact Hrun|].
  apply Forall_alter; [done|]. intros row _ [Hasc Hle]. split.
  - by apply ascending_snoc.
  - apply Forall_app. split; [done|]. by constructor.
Qed.

Lemma buildTranspose_loop_ascending g : ∀ (m : nat) k tr tr',
  for_each (seqZ k (Z.of_nat m)) (λ v transpose,
    ws ← at_ g v;
    for_each ws (λ w transpose,
      if in_bounds (size g) w then push_back_at transpose w v
      else Ok transpose) transpose) tr
  = Ok tr' →
  Forall (λ row, ascending row ∧ Forall (λ v, v < k) row) tr →
  Forall (λ row, ascending row ∧ Forall (λ v, v < k + Z.of_nat m) row) tr'.
Proof.
  induction m as [|m IH]; intros k tr tr'.
  { intros [= <-]. by rewrite Z.add_0_r. }
  rewrite seqZ_cons by lia.
  replace (Z.pred (Z.of_nat (S m))) with (Z.of_nat m) by lia.
  cbn [for_each]. destruct (at_ g k) as [ws| |]; try discriminate. step.
  destruct (for_each ws _ tr) as [tr1| |] eqn:E; try discriminate. step.
  intros Hrun Hrows.
  replace (k + Z.of_nat (S m)) with (Z.succ k + Z.of_nat m) by lia.
  eapply IH; [exact Hrun|].
  apply buildTranspose_inner_ascending in E.
  - eapply Forall_impl; [exact E|]. intros row [Hasc Hle]. split; [done|].
    eapply Forall_impl; [exact Hle|]. intros v. cbn beta. lia.
  - eapply Forall_impl; [exact Hrows|]. intros row [Hasc Hlt]. split; [done|].
    eapply Forall_impl; [exact Hlt|]. intros v. cbn beta. lia.
Qed.

(** X12 (rows of the transpose): every adjacency list of the transpose
    holds nodes only, in ascending order: the sources of the edges into a
    node are listed from the smallest to the greatest. *)
Theorem buildTranspose_rows_ascending (g : Graph) :
  ∃ transpose, buildTranspose g = Ok transpose ∧
    Forall (λ row, ascending row ∧ Forall (λ v, 0 ≤ v < size g) row) transpose.
Proof.
  destruct (buildTranspose_spec g) as (tr & Htr & Hsz & Hm).
  exists tr. split; [done|].
  assert (Forall (λ row, ascending row ∧
                         Forall (λ v, v < 0 + Z.of_nat (length g)) row) tr) as Hasc.
  { eapply (buildTranspose_loop_ascending g (length g) 0); [exact Htr|].
    apply Forall_replicate. split; [|constructor].
    intros i j a b Hi. by destruct i. }
  apply Forall_lookup. intros i row Hrow.
  destruct (Forall_lookup_1 _ _ _ _ Hasc Hrow) as [Ha _]. split; [done|].
  apply Forall_forall. intros v Hv.
  assert (at_ tr (Z.of_nat i) = Ok row) as Hat
    by (apply at_Ok; rewrite Nat2Z.id; split; [lia|done]).
  assert (0 < mult tr (Z.of_nat i) v)%nat as Hpos.
  { unfold mult. rewrite Hat. by apply occ_pos. }
  rewrite Hm in Hpos. destruct (in_bounds _ _); [|lia].
  unfold mult in Hpos. destruct (at_ g v) as [ws| |] eqn:E; try lia.
  by eapply at_in_range.
Qed.

Lemma buildTranspose_rows_ascending_witness :
  ∃ transpose, buildTranspose complex = Ok transpose ∧
    Forall (λ row, ascending row ∧ Forall (λ v, 0 ≤ v < size complex) row)
      transpose.
Proof. exact (buildTranspose_rows_ascending complex). Defined.

(** ** Graphs without edges between nodes *)

Lemma ascending_StronglySorted (l : list Z) :
  ascending l → StronglySorted Z.le l.
Proof.
  induction l as [|a l IH]; intros Hasc; constructor.
  - apply IH. intros i j x y Hi Hj Hij.
    apply (Hasc (S i) (S j) x y); [done..|lia].
  - apply Forall_lookup. intros j y Hj.
    apply (Hasc 0%nat (S j) a y); [done..|lia].
Qed.

Lemma StronglySorted_seqZ (n : nat) : ∀ m, StronglySorted Z.le (seqZ m (Z.of_nat n)).
Proof.
  induction n as [|n IH]; intros m; [constructor|].
  rewrite seqZ_cons by lia.
  replace (Z.pred (Z.of_nat (S n))) with (Z.of_nat n) by lia.
  constructor; [apply IH|].
  apply Forall_forall. intros y Hy%elem_of_seqZ. lia.
Qed.

Lemma join_singletons (l : list Z) : mjoin ((λ v, [v]) <$> l) = l.
Proof.
  induction l as [|a l IH]; [done|]. rewrite fmap_cons.
  change (a :: mjoin ((λ v, [v]) <$> l) = a :: l). by rewrite IH.
Qed.

Lemma no_edges_reach g a b : (∀ a b, ¬ edge g a b) → reach g a b → a = b.
Proof. intros Hno Hr. destruct Hr as [|a c b Hac _]; [done|]. by apply Hno in Hac. Qed.

(** Without edges the finishing order is the order of the indices. *)
Lemma no_edges_order g vis order :
  (∀ a b, ¬ edge g a b) →
  top_inv g vis order → (∀ v, 0 ≤ v < size g → v ∈ order) →
  roots_asc g order (size g) →
  order = seqZ 0 (size g).
Proof.
  intros Hno Htop Hall Hasc.
  apply (StronglySorted_unique Z.le).
  - apply ascending_StronglySorted. intros i j a b Hi Hj Hij.
    destruct (Hasc a b) as (u' & Hu' & _ & Hr); [by exists i, j|].
    apply (no_edges_reach _ _ _ Hno) in Hr. lia.
  - apply StronglySorted_seqZ.
  - by eapply top_inv_permutation.
Qed.

(** Without edges the components are the single nodes, the greatest
    index first. *)
Lemma no_edges_components g vis comps :
  (∀ a b, ¬ edge g a b) →
  comp_inv g (seqZ 0 (size g)) vis comps →
  ∀ i : nat, (i ≤ length comps)%nat →
    (i ≤ length g)%nat ∧
    take i comps =
      (λ v, [v]) <$> reverse (seqZ (size g - Z.of_nat i) (Z.of_nat i)).
Proof.
  intros Hno Hi. induction i as [|i IH]; intros Hle.
  { split; [lia|]. by rewrite take_0. }
  destruct IH as [Hin IH]; [lia|].
  destruct (lookup_lt_is_Some_2 comps i) as [c Hc]; [lia|].
  destruct (ci_comps _ _ _ _ Hi i c Hc)
    as (r & rest & j & -> & Hscc & Hj & Hnot & Hafter).
  assert (rest = []) as ->.
  { assert (NoDup (r :: rest)) as [Hr _]%NoDup_cons.
    { eapply NoDup_join_elem; [by eapply ci_nodup|].
      by eapply list_elem_of_lookup_2. }
    destruct rest as [|x rest]; [done|]. exfalso. apply Hr.
    assert (scc g r x) as [Hrx _] by (apply Hscc; by right; left).
    rewrite (no_edges_reach _ _ _ Hno Hrx). by left. }
  assert (∀ v, v ∈ mjoin (take i comps) ↔
               size g - Z.of_nat i ≤ v < size g) as Hpre.
  { intros v. rewrite IH, join_singletons, elem_of_reverse, elem_of_seqZ. lia. }
  apply lookup_seqZ in Hj as [-> Hjn]. rewrite Hpre in Hnot.
  assert (0 + Z.of_nat j = size g - Z.of_nat i - 1) as Hr.
  { destruct (decide (0 + Z.of_nat j < size g - Z.of_nat i - 1)) as [Hlt|]; [|lia].
    exfalso.
    assert (0 + Z.of_nat (S j) ∈ mjoin (take i comps)) as Hin'.
    { apply (Hafter (S j)); [|lia]. apply lookup_seqZ. split; [done|lia]. }
    apply Hpre in Hin'. lia. }
  unfold size in *. split; [lia|].
  rewrite (take_S_r _ _ _ Hc), IH, Hr.
  replace (Z.of_nat (length g) - Z.of_nat (S i))
    with (Z.of_nat (length g) - Z.of_nat i - 1) by lia.
  rewrite (seqZ_cons _ (Z.of_nat (S i))) by lia.
  rewrite reverse_cons, fmap_app. simpl. repeat f_equal; lia.
Qed.

(** X13 (no edges between nodes): on a graph that has no edge from a node
    to a node (no edges at all, or only targets that are not nodes),
    [findSCCs] returns every node as a component of its own, from the
    greatest index down to 0. *)
Theorem findSCCs_no_edges (g : Graph) :
  (∀ a b, ¬ edge g a b) →
  findSCCs g = Ok ((λ v, [v]) <$> reverse (seqZ 0 (size g))).
Proof.
  intros Hno.
  destruct (decide (size g = 0)) as [Hz|Hnz].
  { by apply size_zero_nil in Hz as ->. }
  destruct (finishOrder_spec (length g) g) as (vis1 & order & Hfin & Htop & Hall & Hasc);
    [done|].
  destruct (findSCCs_fuel_spec (length g) g)
    as (vis1' & order' & tr & vis2 & comps & Hfin' & _ & _ & _ & _ & Hrun & Hi & Hcov);
    [done..|].
  rewrite Hfin in Hfin'. injection Hfin' as <- <-.
  rewrite (no_edges_order _ _ _ Hno Htop Hall Hasc) in Hi.
  unfold findSCCs. rewrite Hrun. f_equal.
  destruct (no_edges_components g vis2 comps Hno Hi (length comps)) as [Hle Htake];
    [done|].
  rewrite take_ge in Htake by done.
  assert (length comps = length g) as Hlen.
  { apply Nat.le_antisymm; [done|].
    assert (0 ∈ mjoin comps) as H0 by (apply Hcov; unfold size in *; lia).
    rewrite Htake, join_singletons, elem_of_reverse, elem_of_seqZ in H0.
    unfold size in *. lia. }
  rewrite Htake, Hlen. unfold size. by rewrite Z.sub_diag.
Qed.

Lemma findSCCs_no_edges_witness :
  (∀ a b, ¬ edge [[5]; []; [-1; 3]] a b) ∧
  findSCCs [[5]; []; [-1; 3]] = Ok [[2]; [1]; [0]].
Proof.
  assert (∀ a b, ¬ edge [[5]; []; [-1; 3]] a b) as H.
  { intros a b (ws & [_ Ha]%at_Ok & Hb & Hr). unfold size in Hr. simpl in Hr.
    destruct (Z.to_nat a) as [|[|[|n]]]; simplify_eq/=;
      repeat (apply elem_of_cons in Hb as [->|Hb]); try lia;
      by apply elem_of_nil in Hb. }
  split; [exact H|]. exact (findSCCs_no_edges _ H).
Defined.

(** ** The demonstration code *)

Lemma append_assoc (a b c : string) : (a +:+ b) +:+ c = a +:+ b +:+ c.
Proof.
  induction a as [|x a IH]; [done|].
  change (String x ((a +:+ b) +:+ c) = String x (a +:+ b +:+ c)). by f_equal.
Qed.

Lemma append_nil_r (a : string) : a +:+ EmptyString = a.
Proof.
  induction a as [|x a IH]; [done|].
  change (String x (a +:+ EmptyString) = String x a). by f_equal.
Qed.

Lemma printElements_spec (size : nat) : ∀ xs (j : nat) out,
  (j + length xs = size)%nat →
  printElements size j xs out = out +:+ showElements xs.
Proof.
  induction xs as [|x xs IH]; intros j out Hj.
  { simpl. by rewrite append_nil_r. }
  cbn [printElements]. simpl in Hj. rewrite IH by lia.
  unfold showElements. rewrite !fmap_cons.
  destruct xs as [|y xs].
  - rewrite decide_False by (simpl in Hj; lia). simpl. by rewrite append_nil_r.
  - rewrite decide_True by (simpl in Hj; lia).
    rewrite fmap_cons. cbn [String.concat]. by rewrite !append_assoc.
Qed.

Lemma printNodes_spec : ∀ rows (i : nat) out,
  printNodes i rows out =
  out +:+ unlines (imap (λ k row, showNode (i + k) row) rows).
Proof.
  induction rows as [|row rows IH]; intros i out.
  { simpl. by rewrite append_nil_r. }
  cbn [printNodes imap]. rewrite IH.
  unfold unlines. cbn [foldr]. rewrite Nat.add_0_r.
  rewrite (imap_ext ((λ k row, showNode (i + k) row) ∘ S)
             (λ k row, showNode (S i + k) row))
    by (intros k r _; cbn; f_equal; lia).
  unfold showNode at 2. destruct row as [|x row].
  - by rewrite !append_assoc.
  - rewrite printElements_spec by (simpl; lia). by rewrite !append_assoc.
Qed.

Lemma printComponents_spec : ∀ comps (i : nat) out,
  printComponents i comps out =
  out +:+ unlines (imap (λ k c, showComponent (i + k) c) comps).
Proof.
  induction comps as [|c comps IH]; intros i out.
  { simpl. by rewrite append_nil_r. }
  cbn [printComponents imap]. rewrite IH.
  unfold unlines. cbn [foldr]. rewrite Nat.add_0_r.
  rewrite (imap_ext ((λ k c, showComponent (i + k) c) ∘ S)
             (λ k c, showComponent (S i + k) c))
    by (intros k r _; cbn; f_equal; lia).
  unfold showComponent at 2.
  rewrite printElements_spec by (simpl; lia). by rewrite !append_assoc.
Qed.

(** X14 (what [printGraph] writes): after the heading, one line per node
    in index order, [[]] for an empty adjacency list and otherwise the
    targets separated by [", "], with no separator after the last one. *)
Theorem printGraph_closed_form (graph : Graph) (name out : string) :
  printGraph graph name out =
  out +:+ endl +:+ name +:+ ":" +:+ endl +:+ "Graph structure:" +:+ endl +:+
  unlines (imap showNode graph).
Proof.
  unfold printGraph. cbv zeta. rewrite printNodes_spec.
  by rewrite !append_assoc.
Qed.

(** X15 (what [printSCCResults] writes): after the heading, either the
    single line for no component and nothing else, or one line per
    component, numbered from 1, with the nodes separated by [", "], and
    then the total, which is the number of components. *)
Theorem printSCCResults_closed_form (components : Components) (out : string) :
  printSCCResults components out =
  out +:+ endl +:+ "Strongly Connected Components:" +:+ endl +:+
  (if bool_decide (components = []) then "  No components found" +:+ endl
   else unlines (imap showComponent components) +:+
        "Total SCCs: " +:+ pretty (length components) +:+ endl).
Proof.
  unfold printSCCResults. cbv zeta. destruct components as [|c comps].
  - rewrite bool_decide_eq_true_2 by done. by rewrite !append_assoc.
  - rewrite bool_decide_eq_false_2 by done.
    rewrite printComponents_spec. by rewrite !append_assoc.
Qed.

(** X16 (the demonstration runs through): none of the assertions of
    [testKosaraju] fails, and [main] returns 0, with the same text
    written. *)
Theorem main_returns_zero (out0 : string) :
  ∃ out, testKosaraju out0 = Ok (Returns () out) ∧
         main out0 = Ok (Returns 0 out).
Proof.
  unfold main, testKosaraju. cbv zeta.
  rewrite findSCCs_triangle, findSCCs_twoCycles, findSCCs_empty,
    findSCCs_single, findSCCs_complex.
  cbn [mbind result_bind]. eexists. split; reflexivity.
Qed.
